(** * cogni-agent: model failover orchestrator and history compaction

    A shallow embedding of [src/agent/agent.py] (class [CognizanceAgent]),
    [src/config.py] (class [Settings]) and [src/api/routes.py] (the [chat]
    handler, its summary cache and the background summarization job).

    Conventions of the embedding
    - Python [str] is [string], holding the bytes of its UTF-8 encoding; a
      string is falsy exactly when it is empty.
    - [Optional[T]] is [option T]; dictionaries with a fixed key set are
      records; [SUMMARY_CACHE] is a [gmap string CacheEntry].
    - [time.time()] is read by the caller and passed in as an integer number
      of seconds.
    - The provider ([client.aio.models.generate_content]) is an oracle that
      sees every interaction made so far (earlier calls and sleeps) and
      answers with a text or raises a classified exception.  The interaction
      log is the only state [process_query] threads through its loops. *)

From Stdlib Require Import ZArith String Ascii List Lia QArith_base.
From stdpp Require Import base strings gmap list.
Import ListNotations.

Local Open Scope string_scope.
Local Open Scope list_scope.

(** ** Strings as Python uses them *)

Module Py.

(** [bool(s)] for a [str]. *)
Definition truthy (s : string) : bool :=
  match s with
  | EmptyString => false
  | String _ _ => true
  end.

(** A [str] is held as the bytes of its UTF-8 encoding.  A byte of the
    form [10xxxxxx] continues the character begun before it. *)
Definition is_continuation (c : ascii) : bool :=
  let n := nat_of_ascii c in
  ((128 <=? n) && (n <=? 191))%nat.

Definition continues (chunk : string) : bool :=
  match chunk with
  | EmptyString => false
  | String c _ => is_continuation c
  end.

(** The characters of a [str], in order, each as the bytes that encode
    it. *)
Fixpoint chars (s : string) : list string :=
  match s with
  | EmptyString => []
  | String c rest =>
      match chars rest with
      | chunk :: more =>
          if continues chunk then String c chunk :: more
          else String c EmptyString :: chunk :: more
      | [] => [String c EmptyString]
      end
  end.

(** [''.join(chunks)] *)
Definition join (chunks : list string) : string :=
  fold_right String.append EmptyString chunks.

(** [ch.isspace()] for one character [ch]: the code points Python counts
    as white space, by their encodings.  One byte: U+0009-000D, U+001C-001F
    and U+0020.  Two bytes: U+0085 and U+00A0.  Three bytes: U+1680,
    U+2000-200A, U+2028, U+2029, U+202F, U+205F and U+3000. *)
Definition isspace (ch : string) : bool :=
  match map nat_of_ascii (list_ascii_of_string ch) with
  | [n] => ((9 <=? n) && (n <=? 13) || (28 <=? n) && (n <=? 32))%nat
  | [a; n] => ((a =? 194) && ((n =? 133) || (n =? 160)))%nat
  | [a; b; n] =>
      ((a =? 225) && (b =? 154) && (n =? 128)
       || (a =? 226) && (b =? 128)
          && ((128 <=? n) && (n <=? 138) || (n =? 168) || (n =? 169) || (n =? 175))
       || (a =? 226) && (b =? 129) && (n =? 159)
       || (a =? 227) && (b =? 128) && (n =? 128))%nat
  | _ => false
  end.

(** Dropping the white space in front of, and behind, a sequence of
    characters. *)
Fixpoint lstrip_chars (chunks : list string) : list string :=
  match chunks with
  | [] => []
  | ch :: rest => if isspace ch then lstrip_chars rest else chunks
  end.

Fixpoint rstrip_chars (chunks : list string) : list string :=
  match chunks with
  | [] => []
  | ch :: rest =>
      match rstrip_chars rest with
      | [] => if isspace ch then [] else [ch]
      | kept => ch :: kept
      end
  end.

(** [s.strip()] *)
Definition strip (s : string) : string :=
  join (rstrip_chars (lstrip_chars (chars s))).

(** [s.split(sep)] for a one-character separator: never returns the empty
    list, [''.split(',') == ['']]. *)
Fixpoint split (sep : ascii) (s : string) : list string :=
  match s with
  | EmptyString => [EmptyString]
  | String c rest =>
      if Ascii.eqb c sep then EmptyString :: split sep rest
      else match split sep rest with
           | field :: fields => String c field :: fields
           | [] => [String c EmptyString]
           end
  end.

Definition lower_ascii (c : ascii) : ascii :=
  let n := nat_of_ascii c in
  if ((65 <=? n) && (n <=? 90))%nat then ascii_of_nat (n + 32) else c.

(** [s.lower()] on the ASCII letters; every other byte is left as it is.
    Python also changes characters outside ASCII, and what it puts in their
    place still holds a character outside ASCII, with the one exception of
    U+212A (Kelvin sign), which becomes [k]: comparing the result with a
    word of ASCII letters other than [k] has the same outcome. *)
Fixpoint lower (s : string) : string :=
  match s with
  | EmptyString => EmptyString
  | String c rest => String (lower_ascii c) (lower rest)
  end.

(** [xs[-1] if xs else default] *)
Definition last_or {A} (xs : list A) (default : A) : A := List.last xs default.

End Py.

(** ** [src/config.py] *)

Record Settings := {
  google_api_key : string;
  google_model : string;
  google_fallback_models : string;
  llm_temperature : Q;
  max_tokens : Z
}.

(** [[m.strip() for m in self.google_fallback_models.split(",") if m.strip()]] *)
Definition fallback_models_list (settings : Settings) : list string :=
  map Py.strip
    (List.filter (fun m => Py.truthy (Py.strip m))
       (Py.split "," (google_fallback_models settings))).

(** The defaults of the [Field] declarations (the API key has none that is
    usable, so a key is supplied). *)
Definition default_settings (api_key : string) : Settings := {|
  google_api_key := api_key;
  google_model := "gemini-2.5-flash";
  google_fallback_models := "gemini-2.0-flash,gemini-1.5-flash,gemini-2.0-flash-lite";
  llm_temperature := Qmake 7 10;
  max_tokens := 2000
|}.

(** ** Data exchanged with the provider *)

(** A turn of the caller's history: [{"role": ..., "content": ...}]. *)
Record Message := { role : string; content : string }.

(** [types.Content(role=..., parts=[types.Part.from_text(text=...)])] *)
Record Content := { content_role : string; parts : list string }.

(** [types.GenerateContentConfig] *)
Record GenerateContentConfig := {
  system_instruction : string;
  temperature : Q;
  max_output_tokens : Z
}.

(** The exception classes [process_query] tells apart. *)
Inductive ExcClass :=
| ResourceExhausted
| TooManyRequests
| ServiceUnavailable
| OtherException.

(** A raised exception: its class and [str(e)]. *)
Record Exc := { exc_class : ExcClass; exc_str : string }.

(** What one [generate_content] call does: [response.text] or a raise. *)
Inductive Outcome :=
| Text (answer : string)
| Raise (e : Exc).

(** One interaction of [process_query] with the outside: a provider call or
    an [asyncio.sleep]. *)
Inductive Event :=
| Call (model : string) (contents : list Content) (config : GenerateContentConfig)
| Sleep (delay : Z).

Definition Provider : Type :=
  list Event -> string -> list Content -> GenerateContentConfig -> Outcome.

(** The first [except] clause of [process_query]. *)
Definition is_quota_error (e : Exc) : bool :=
  match exc_class e with
  | ResourceExhausted | TooManyRequests | ServiceUnavailable => true
  | OtherException => false
  end.

(** Number of provider calls made to [m] in a log. *)
Definition is_call_to (m : string) (ev : Event) : bool :=
  match ev with
  | Call m' _ _ => String.eqb m m'
  | Sleep _ => false
  end.

Definition calls_to (m : string) (log : list Event) : nat :=
  length (List.filter (is_call_to m) log).

(** The delays slept, in order. *)
Definition sleeps (log : list Event) : list Z :=
  flat_map (fun ev => match ev with Sleep d => [d] | Call _ _ _ => [] end) log.

(** ** [src/agent/agent.py] *)

Record CognizanceAgent := {
  system_prompt : string;
  generation_config : GenerateContentConfig;
  model_names : list string;
  max_retries : nat;
  base_retry_delay : Z
}.

(** [CognizanceAgent.__init__]; [None] stands for the [ValueError] raised
    when no API key is configured.  The prompt text built by
    [_create_system_prompt] is passed in. *)
Definition CognizanceAgent_init (settings : Settings) (prompt : string)
  : option CognizanceAgent :=
  if Py.truthy (google_api_key settings) then
    Some {|
      system_prompt := prompt;
      generation_config := {|
        system_instruction := prompt;
        temperature := llm_temperature settings;
        max_output_tokens := max_tokens settings
      |};
      model_names := google_model settings :: fallback_models_list settings;
      max_retries := 3;
      base_retry_delay := 1
    |}
  else None.

(** The result dictionary of [process_query]; absent keys are [None]. *)
Record QueryResult := {
  success : bool;
  response : string;
  model_used : option string;
  error : option string
}.

(** [CognizanceAgent._build_history] *)
Definition build_role (raw_role : string) : string :=
  let raw_role := Py.lower raw_role in
  if String.eqb raw_role "user" then "user"
  else if String.eqb raw_role "assistant" then "model"
  else if String.eqb raw_role "system" then "system"
  else "model".

Definition _build_history (chat_history : option (list Message)) : list Content :=
  match chat_history with
  | None => []
  | Some msgs =>
      map (fun msg => {| content_role := build_role (role msg);
                         parts := [content msg] |}) msgs
  end.

(** The literal part of [error_message] in the last [except] clause; the two
    characters before [Error:] are line feeds. *)
Definition terminal_apology : string :=
  "I apologize, but I encountered an error processing your request. "
  +:+ "Please try again or contact our support team."
  +:+ String "010" (String "010" "Error: ").

Definition terminal_error_message (detail : string) : string :=
  terminal_apology +:+ detail.

Definition quota_error_message : string :=
  "All available models have hit their quota limits right now. "
  +:+ "Please try again in a few minutes.".

(** The two locals the loops of [process_query] update. *)
Record LoopState := {
  last_error : option Exc;
  log : list Event
}.

Section ProcessQuery.

Variable generate_content : Provider.
Variable self : CognizanceAgent.

(** [for attempt in range(self.max_retries)] for one [model_name], run over
    the attempt indices still to come.  [Some r] is [return r]; [None]
    is leaving the loop ([break], or the range running out) towards the
    next candidate. *)
Fixpoint retry_loop (model_name : string) (contents : list Content)
    (config : GenerateContentConfig) (attempts : list nat) (st : LoopState)
    : option QueryResult * LoopState :=
  match attempts with
  | [] => (None, st)
  | attempt :: later =>
      if negb (Py.truthy model_name) then
        retry_loop model_name contents config later st
      else
        let called := log st ++ [Call model_name contents config] in
        match generate_content (log st) model_name contents config with
        | Text answer =>
            (Some {| success := true; response := answer;
                     model_used := Some model_name; error := None |},
             {| last_error := last_error st; log := called |})
        | Raise e =>
            if is_quota_error e then
              if (attempt <? max_retries self - 1)%nat then
                let delay := (base_retry_delay self * 2 ^ Z.of_nat attempt)%Z in
                retry_loop model_name contents config later
                  {| last_error := Some e; log := called ++ [Sleep delay] |}
              else
                (None, {| last_error := Some e; log := called |})
            else
              (Some {| success := false;
                       response := terminal_error_message (exc_str e);
                       model_used := None;
                       error := Some (exc_str e) |},
               {| last_error := last_error st; log := called |})
        end
  end.

(** [for model_name in model_candidates] *)
Fixpoint model_loop (contents : list Content) (config : GenerateContentConfig)
    (candidates : list string) (st : LoopState)
    : option QueryResult * LoopState :=
  match candidates with
  | [] => (None, st)
  | model_name :: others =>
      match retry_loop model_name contents config (seq 0 (max_retries self)) st with
      | (Some r, st') => (Some r, st')
      | (None, st') => model_loop contents config others st'
      end
  end.

(** [[preferred_model] if preferred_model else self.model_names] *)
Definition model_candidates (preferred_model : option string) : list string :=
  match preferred_model with
  | Some m => if Py.truthy m then [m] else model_names self
  | None => model_names self
  end.

Variable settings : Settings.

(** The generation config: the shared default unless the caller overrides
    the temperature or the token ceiling. *)
Definition query_config (temperature : option Q) (max_output_tokens : option Z)
  : GenerateContentConfig :=
  match temperature, max_output_tokens with
  | None, None => generation_config self
  | _, _ =>
      {| system_instruction := system_prompt self;
         temperature := default (llm_temperature settings) temperature;
         max_output_tokens := default (max_tokens settings) max_output_tokens |}
  end.

(** [list(history) + [types.Content(role="user", ...)]] *)
Definition query_contents (user_input : string)
    (chat_history : option (list Message)) : list Content :=
  _build_history chat_history ++ [{| content_role := "user"; parts := [user_input] |}].

(** [CognizanceAgent.process_query]: the result and the interactions made,
    in order. *)
Definition process_query (user_input : string)
    (chat_history : option (list Message)) (preferred_model : option string)
    (temperature : option Q) (max_output_tokens : option Z)
    : QueryResult * list Event :=
  let contents := query_contents user_input chat_history in
  let config := query_config temperature max_output_tokens in
  match model_loop contents config (model_candidates preferred_model)
          {| last_error := None; log := [] |} with
  | (Some r, st) => (r, log st)
  | (None, st) =>
      ({| success := false;
          response := quota_error_message;
          model_used := None;
          error := Some (match last_error st with
                         | Some e => exc_str e
                         | None => "Quota exceeded on all models"
                         end) |},
       log st)
  end.

End ProcessQuery.

(** ** [src/api/routes.py] *)

Definition MAX_TURNS : nat := 15.
Definition KEEP_LAST : nat := 8.
Definition SUMMARY_TTL_SECONDS : Z := 6 * 3600.

(** A value of [SUMMARY_CACHE]: [{"summary": str, "expires_at": float}]. *)
Record CacheEntry := { summary : string; expires_at : Z }.

Record ChatRequest := {
  message : string;
  chat_history : option (list Message);
  conversation_id : option string
}.

Record ChatResponse := {
  resp_success : bool;
  resp_response : string;
  resp_error : option string
}.

(** The arguments [background_tasks.add_task] records for
    [_schedule_summarization]. *)
Record SummarizationJob := {
  conv_id : option string;
  older_turns : list Message
}.

(** What the windowing part of [chat] leaves behind: the history handed to
    [process_query], the background tasks added, and [SUMMARY_CACHE]. *)
Record Windowed := {
  history : option (list Message);
  background_tasks : list SummarizationJob;
  cache_after : gmap string CacheEntry
}.

(** Everything one run of [chat] does: its response, the interactions with
    the provider, the background tasks it added, and [SUMMARY_CACHE] when it
    returns. *)
Record ChatOutcome := {
  reply : ChatResponse;
  interactions : list Event;
  tasks_added : list SummarizationJob;
  cache_left : gmap string CacheEntry
}.

(** [conversation_id and conversation_id in SUMMARY_CACHE], with the entry
    found. *)
Definition cached_entry (conversation_id : option string)
    (cache : gmap string CacheEntry) : option (string * CacheEntry) :=
  match conversation_id with
  | Some cid =>
      if Py.truthy cid then
        match cache !! cid with
        | Some entry => Some (cid, entry)
        | None => None
        end
      else None
  | None => None
  end.

(** Lines 147-227 of [chat]: from the request, the clock and the cache to
    the history to send. *)
Definition window_history (chat_request : ChatRequest) (now : Z)
    (cache : gmap string CacheEntry) : Windowed :=
  match chat_history chat_request with
  | None | Some [] =>
      {| history := None; background_tasks := []; cache_after := cache |}
  | Some full_history =>
      if (MAX_TURNS <? length full_history)%nat then
        let older := take (length full_history - KEEP_LAST) full_history in
        let recent := drop (length full_history - KEEP_LAST) full_history in
        match cached_entry (conversation_id chat_request) cache with
        | Some (cid, entry) =>
            if (now <? expires_at entry)%Z then
              {| history :=
                   Some ({| role := "assistant"; content := summary entry |} :: recent);
                 background_tasks := [];
                 cache_after := cache |}
            else
              {| history := Some recent;
                 background_tasks := [];
                 cache_after := delete cid cache |}
        | None =>
            {| history := Some recent;
               background_tasks :=
                 [{| conv_id := conversation_id chat_request; older_turns := older |}];
               cache_after := cache |}
        end
      else
        {| history := Some full_history; background_tasks := []; cache_after := cache |}
  end.

Definition summary_prompt : string :=
  "Please summarize the preceding conversation into 2-3 short "
  +:+ "sentences focusing on user goals, important facts, and any "
  +:+ "unresolved issues. Keep the summary concise.".

(** [settings.fallback_models_list[-1] if settings.fallback_models_list
    else settings.google_model] *)
Definition cheaper_model (settings : Settings) : string :=
  Py.last_or (fallback_models_list settings) (google_model settings).

(** The cache write at the end of [_do], given the result of the
    summarization query and the clock at that moment. *)
Definition store_summary (conv_id : option string) (summary_result : QueryResult)
    (now : Z) (cache : gmap string CacheEntry) : gmap string CacheEntry :=
  if success summary_result && Py.truthy (response summary_result) then
    let summary_text := Py.strip (response summary_result) in
    match conv_id with
    | Some cid =>
        if Py.truthy cid then
          <[cid := {| summary := summary_text;
                      expires_at := (now + SUMMARY_TTL_SECONDS)%Z |}]> cache
        else cache
    | None => cache
    end
  else cache.

Section Chat.

Variable generate_content : Provider.
Variable agent : CognizanceAgent.
Variable settings : Settings.

(** The coroutine [_do] that [_schedule_summarization] starts: one
    [process_query] over the older turns, then the cache write.  [now] is
    [time.time()] when the query has completed, [cache] is [SUMMARY_CACHE]
    at that moment.  Returns the cache and the interactions made. *)
Definition _do (job : SummarizationJob) (now : Z) (cache : gmap string CacheEntry)
  : gmap string CacheEntry * list Event :=
  let '(summary_result, made) :=
    process_query generate_content agent settings summary_prompt
      (Some (older_turns job)) (Some (cheaper_model settings))
      (Some (Qmake 2 10)) (Some 200%Z) in
  (store_summary (conv_id job) summary_result now cache, made).

(** [_schedule_summarization], the function [chat] hands to
    [background_tasks.add_task]: [asyncio.create_task(_do())] under
    [try ... except Exception: return].  [create_task] needs an event loop
    running in the calling thread, and [running_loop] tells whether there is
    one: without it [create_task] raises, the handler returns, and [_do]
    never starts.  With it, [_do] runs to completion at [now]. *)
Definition _schedule_summarization (running_loop : bool) (job : SummarizationJob)
    (now : Z) (cache : gmap string CacheEntry)
  : gmap string CacheEntry * list Event :=
  if running_loop then _do job now cache else (cache, []).

(** The provider interactions of a summarization job handed to
    [_schedule_summarization]. *)
Definition interactions_of_job (running_loop : bool) (job : SummarizationJob)
    (now : Z) (cache : gmap string CacheEntry) : list Event :=
  snd (_schedule_summarization running_loop job now cache).

(** [chat]: the response, the interactions of its own [process_query], the
    background tasks added and the cache it leaves. *)
Definition chat (chat_request : ChatRequest) (now : Z)
    (cache : gmap string CacheEntry) : ChatOutcome :=
  let w := window_history chat_request now cache in
  let '(result, made) :=
    process_query generate_content agent settings (message chat_request)
      (history w) None None None in
  {| reply := {| resp_success := success result;
                 resp_response := response result;
                 resp_error := error result |};
     interactions := made;
     tasks_added := background_tasks w;
     cache_left := cache_after w |}.

End Chat.

(** ** Vocabulary of the statements *)

(** [n] failed attempts of [m], each followed by its backoff sleep, the
    first of them with attempt index [attempt]. *)
Fixpoint backoff_log (base : Z) (m : string) (c : list Content)
    (g : GenerateContentConfig) (attempt n : nat) : list Event :=
  match n with
  | O => []
  | S k =>
      Call m c g :: Sleep (base * 2 ^ Z.of_nat attempt)
        :: backoff_log base m c g (S attempt) k
  end.

(** A model's whole retry budget spent: every attempt a call, a sleep
    between two attempts, none after the last. *)
Definition exhausted_log (self : CognizanceAgent) (c : list Content)
    (g : GenerateContentConfig) (m : string) : list Event :=
  backoff_log (base_retry_delay self) m c g 0 (max_retries self - 1) ++ [Call m c g].

(** The provider answers the call to [m] that follows [k] earlier calls to
    [m] with a rate-limit, too-many-requests or unavailable error. *)
Definition fails_transiently_at (P : Provider) (m : string) (c : list Content)
    (g : GenerateContentConfig) (k : nat) : Prop :=
  forall t, calls_to m t = k ->
    exists e, P t m c g = Raise e /\ is_quota_error e = true.

(** The provider answers the call to [m] that follows [k] earlier calls to
    [m] with the text [answer]. *)
Definition answers_at (P : Provider) (m : string) (c : list Content)
    (g : GenerateContentConfig) (k : nat) (answer : string) : Prop :=
  forall t, calls_to m t = k -> P t m c g = Text answer.

(** [detail] occurs inside [text]. *)
Definition embedded (detail text : string) : Prop :=
  exists before after, text = before +:+ detail +:+ after.

(** The diagnostic detail of a failure result is in its [error] field and
    nowhere in its [response] text. *)
Definition detail_kept_apart (r : QueryResult) : Prop :=
  exists detail, error r = Some detail /\ ~ embedded detail (response r).

(** ** The expiry sweep of [src/api/routes.py] *)

(** [[k for k, v in SUMMARY_CACHE.items() if v.get("expires_at", 0) <= now]].
    The keys come in the order of the map, where Python has insertion
    order; the deletions below do not depend on it. *)
Definition expired_keys (now : Z) (cache : gmap string CacheEntry) : list string :=
  (filter (fun kv => (expires_at (snd kv) <= now)%Z) (map_to_list cache)).*1.

(** [del SUMMARY_CACHE[k]]; [None] is the [KeyError] of an absent key. *)
Definition py_del (k : string) (cache : gmap string CacheEntry)
  : option (gmap string CacheEntry) :=
  match cache !! k with
  | Some _ => Some (delete k cache)
  | None => None
  end.

(** [for k in to_delete: del SUMMARY_CACHE[k]] under [except Exception:
    pass]: an exception abandons the rest of the pass and keeps what was
    deleted so far.  The flag tells whether the handler ran. *)
Fixpoint delete_each (to_delete : list string) (cache : gmap string CacheEntry)
  : gmap string CacheEntry * bool :=
  match to_delete with
  | [] => (cache, false)
  | k :: rest =>
      match py_del k cache with
      | Some cache' => delete_each rest cache'
      | None => (cache, true)
      end
  end.

(** One iteration of [while True] in [_cleanup_summary_cache_loop], with
    [now] the reading of [time.time()]. *)
Definition sweep_pass (now : Z) (cache : gmap string CacheEntry)
  : gmap string CacheEntry * bool :=
  delete_each (expired_keys now cache) cache.

(** Iterations of [_cleanup_summary_cache_loop] run one after the other, one
    per clock reading, with no other task writing in between. *)
Definition _cleanup_summary_cache_loop (clocks : list Z)
    (cache : gmap string CacheEntry) : gmap string CacheEntry :=
  foldl (fun c now => fst (sweep_pass now c)) cache clocks.

(** ** More vocabulary *)

Definition is_call (ev : Event) : bool :=
  match ev with
  | Call _ _ _ => true
  | Sleep _ => false
  end.

(** Number of provider calls in a log, whatever the model. *)
Definition count_calls (made : list Event) : nat :=
  length (List.filter is_call made).

(** Replaying a log against the provider: every call in [todo], made after
    [done] and what precedes it in [todo], was answered with a transient
    error. *)
Fixpoint all_transient_from (P : Provider) (done todo : list Event) : bool :=
  match todo with
  | [] => true
  | Call m c g :: rest =>
      match P done m c g with
      | Raise e => is_quota_error e
      | Text _ => false
      end && all_transient_from P (done ++ [Call m c g]) rest
  | Sleep d :: rest => all_transient_from P (done ++ [Sleep d]) rest
  end.

Definition all_transient (P : Provider) (made : list Event) : bool :=
  all_transient_from P [] made.

(** Replaying a log against the provider: what the provider did on the last
    call of [todo], or [seen] if [todo] has no call. *)
Fixpoint last_outcome_from (P : Provider) (done todo : list Event)
    (seen : option Outcome) : option Outcome :=
  match todo with
  | [] => seen
  | Call m c g :: rest =>
      last_outcome_from P (done ++ [Call m c g]) rest (Some (P done m c g))
  | Sleep d :: rest => last_outcome_from P (done ++ [Sleep d]) rest seen
  end.

Definition last_outcome (P : Provider) (made : list Event) : option Outcome :=
  last_outcome_from P [] made None.

(** The [error] text of the all-exhausted result, from the last outcome. *)
Definition exhausted_detail (last : option Outcome) : string :=
  match last with
  | Some (Raise e) => exc_str e
  | _ => "Quota exceeded on all models"
  end.

(** How a run of [process_query] that made the interactions [made] and
    returned [r] was decided: by a text on its last call, by an exception
    outside the capacity classes on its last call, or by running out of
    candidates; every call before the deciding one was answered with a
    transient error. *)
Inductive Decided (P : Provider) (c : list Content) (g : GenerateContentConfig)
    (made : list Event) (r : QueryResult) : Prop :=
| by_answer (body : list Event) (m answer : string) :
    made = body ++ [Call m c g] ->
    all_transient P body = true ->
    P body m c g = Text answer ->
    r = {| success := true; response := answer;
           model_used := Some m; error := None |} ->
    Decided P c g made r
| by_terminal_error (body : list Event) (m : string) (e : Exc) :
    made = body ++ [Call m c g] ->
    all_transient P body = true ->
    P body m c g = Raise e ->
    is_quota_error e = false ->
    r = {| success := false; response := terminal_error_message (exc_str e);
           model_used := None; error := Some (exc_str e) |} ->
    Decided P c g made r
| by_exhaustion :
    all_transient P made = true ->
    r = {| success := false; response := quota_error_message;
           model_used := None;
           error := Some (exhausted_detail (last_outcome P made)) |} ->
    Decided P c g made r.

(** [cors_origins_list] of [src/config.py]:
    [[origin.strip() for origin in self.cors_origins.split(",")]], with the
    configured string passed in. *)
Definition cors_origins_list (cors_origins : string) : list string :=
  map Py.strip (Py.split "," cors_origins).

(** Number of occurrences of the character [x] in [s]. *)
Fixpoint count_char (x : ascii) (s : string) : nat :=
  match s with
  | EmptyString => 0
  | String c rest => (if Ascii.eqb c x then 1 else 0) + count_char x rest
  end.

(** What one candidate [m] may contribute to the log of a query: calls to
    [m] with the query's payload and backoff sleeps, at most [max_retries]
    calls and [max_retries - 1] sleeps. *)
Definition attempts_of (self : CognizanceAgent) (c : list Content)
    (g : GenerateContentConfig) (m : string) (segment : list Event) : Prop :=
  Forall (fun ev =>
            ev = Call m c g
            \/ exists i, i < max_retries self - 1
                         /\ ev = Sleep (base_retry_delay self * 2 ^ Z.of_nat i))
    segment
  /\ count_calls segment <= max_retries self
  /\ length (sleeps segment) <= max_retries self - 1.

(** Comparing a role with a lower-case word without regard to ASCII case,
    written without [Py.lower]: a character matches a letter of the word if
    it is that letter or the capital 32 places before it. *)
Definition same_letter (c w : ascii) : bool :=
  Ascii.eqb c w
  || ((65 <=? nat_of_ascii c) && (nat_of_ascii c <=? 90)
      && (nat_of_ascii c + 32 =? nat_of_ascii w))%nat.

Fixpoint matches_ignoring_case (raw word : string) : bool :=
  match raw, word with
  | EmptyString, EmptyString => true
  | String c raw', String w word' =>
      same_letter c w && matches_ignoring_case raw' word'
  | _, _ => false
  end.

(** The role a turn is to be sent with, by the policy of [_build_history]:
    [user] and [system] are kept, whatever their case, and everything else
    is sent as [model]. *)
Definition expected_role (raw : string) : string :=
  if matches_ignoring_case raw "user" then "user"
  else if matches_ignoring_case raw "system" then "system"
  else "model".

Fixpoint no_capital (word : string) : bool :=
  match word with
  | EmptyString => true
  | String w rest =>
      ((nat_of_ascii w <? 65) || (90 <? nat_of_ascii w))%nat && no_capital rest
  end.

(** The character [x] occurs in [s]. *)
Fixpoint occurs (x : ascii) (s : string) : bool :=
  match s with
  | EmptyString => false
  | String c rest => Ascii.eqb x c || occurs x rest
  end.

(** The shape of what [Py.chars] returns: every chunk is one byte followed
    by continuation bytes, and every chunk but the first starts with a byte
    that is not a continuation byte. *)
Fixpoint all_continuation (s : string) : bool :=
  match s with
  | EmptyString => true
  | String c rest => Py.is_continuation c && all_continuation rest
  end.

Definition is_char (ch : string) : bool :=
  match ch with
  | EmptyString => false
  | String _ tail => all_continuation tail
  end.

Definition starts_char (ch : string) : bool :=
  is_char ch && negb (Py.continues ch).

Definition well_split (chunks : list string) : Prop :=
  match chunks with
  | [] => True
  | ch :: rest => is_char ch = true /\ Forall (fun c => starts_char c = true) rest
  end.

(** Neither the first nor the last character of [s] is white space. *)
Definition no_outer_space (s : string) : Prop :=
  (forall ch, head (Py.chars s) = Some ch -> Py.isspace ch = false)
  /\ (forall ch, last (Py.chars s) = Some ch -> Py.isspace ch = false).

(** ** Scenarios

    Concrete settings, providers, requests and caches on which the
    statements below are exercised. *)

Module Scenario.

Definition settings : Settings := default_settings "test-key".

Definition prompt : string := "You are an assistant for Cognizance 2026.".

(** The agent [__init__] builds from [settings]. *)
Definition agent : CognizanceAgent := {|
  system_prompt := prompt;
  generation_config := {|
    system_instruction := prompt;
    temperature := Qmake 7 10;
    max_output_tokens := 2000
  |};
  model_names := ["gemini-2.5-flash"; "gemini-2.0-flash"; "gemini-1.5-flash";
                  "gemini-2.0-flash-lite"];
  max_retries := 3;
  base_retry_delay := 1
|}.

Definition primary : string := "gemini-2.5-flash".
Definition cheapest : string := "gemini-2.0-flash-lite".

(** Rate-limited on the first two calls to a model, then answers. *)
Definition flaky : Provider := fun t m _ _ =>
  if (calls_to m t <? 2)%nat then
    Raise {| exc_class := ResourceExhausted; exc_str := "429 RESOURCE_EXHAUSTED" |}
  else Text "The festival runs from 13th to 15th March 2026.".

(** The primary model is unavailable, every fallback answers. *)
Definition primary_down : Provider := fun _ m _ _ =>
  if String.eqb m primary then
    Raise {| exc_class := ServiceUnavailable; exc_str := "503 UNAVAILABLE" |}
  else Text "Registration is open on the website.".

(** Every call is rejected with an error outside the capacity classes. *)
Definition rejecting : Provider := fun _ _ _ _ =>
  Raise {| exc_class := OtherException; exc_str := "400 INVALID_ARGUMENT" |}.

(** Every call hits the quota; the error text names the model. *)
Definition saturated : Provider := fun _ m _ _ =>
  Raise {| exc_class := TooManyRequests; exc_str := "429 quota exceeded for " +:+ m |}.

(** Answers every call with a short summary, padded with blanks. *)
Definition summarizer : Provider := fun _ _ _ _ =>
  Text "  The user asked about dates and registration.  ".

Definition turn (i : nat) : Message :=
  {| role := if Nat.even i then "user" else "assistant";
     content := "turn " +:+ String (ascii_of_nat (65 + i)) "" |}.

(** Histories of 3 and of 16 turns. *)
Definition short_turns : list Message := map turn (seq 0 3).
Definition long_turns : list Message := map turn (seq 0 16).

Definition short_request : ChatRequest :=
  {| message := "When is the festival?";
     chat_history := Some short_turns;
     conversation_id := Some "query-123" |}.

Definition long_request : ChatRequest :=
  {| message := "And the prizes?";
     chat_history := Some long_turns;
     conversation_id := Some "query-123" |}.

Definition anonymous_request : ChatRequest :=
  {| message := "And the prizes?";
     chat_history := Some long_turns;
     conversation_id := None |}.

(** A cache whose entry for [query-123] expired at time 100. *)
Definition stale_cache : gmap string CacheEntry :=
  {[ "query-123" := {| summary := "Earlier: the user asked about dates.";
                       expires_at := 100 |} ]}.

Definition keyed_job : SummarizationJob :=
  {| conv_id := Some "query-123"; older_turns := take 8 long_turns |}.

End Scenario.

(** Further settings and caches for the statements on the rest of the
    code. *)

Module Cases.

(** No usable model name at all: an empty primary model and blank
    fallbacks. *)
Definition unnamed_settings : Settings := {|
  google_api_key := "test-key";
  google_model := "";
  google_fallback_models := " , ,";
  llm_temperature := Qmake 7 10;
  max_tokens := 2000
|}.

Definition unnamed_agent : CognizanceAgent := {|
  system_prompt := Scenario.prompt;
  generation_config := {|
    system_instruction := Scenario.prompt;
    temperature := Qmake 7 10;
    max_output_tokens := 2000
  |};
  model_names := [""];
  max_retries := 3;
  base_retry_delay := 1
|}.

(** U+00A0 (no-break space), U+2003 (em space) and U+3000 (ideographic
    space) in UTF-8. *)
Definition nbsp : string := String "194" (String "160" "").
Definition em_space : string := String "226" (String "128" (String "131" "")).
Definition wide_space : string := String "227" (String "128" (String "128" "")).

(** Fallbacks written with blanks, also outside ASCII, and empty fields. *)
Definition untidy_settings : Settings := {|
  google_api_key := "test-key";
  google_model := "gemini-2.5-flash";
  google_fallback_models :=
    " gemini-2.0-flash , ," +:+ nbsp +:+ "gemini-1.5-flash" +:+ wide_space
    +:+ "," +:+ em_space;
  llm_temperature := Qmake 7 10;
  max_tokens := 2000
|}.

(** Unavailable on the first call to a model, then an internal error. *)
Definition strained : Provider := fun t m _ _ =>
  if (calls_to m t <? 1)%nat then
    Raise {| exc_class := ServiceUnavailable; exc_str := "503 UNAVAILABLE" |}
  else Raise {| exc_class := OtherException; exc_str := "500 INTERNAL" |}.

(** One entry that expired at time 100 and one that is fresh until 900. *)
Definition mixed_cache : gmap string CacheEntry :=
  <[ "query-456" := {| summary := "The user asked about prizes.";
                       expires_at := 900 |} ]> Scenario.stale_cache.

Definition fresh_request : ChatRequest :=
  {| message := "And the prizes?";
     chat_history := Some Scenario.long_turns;
     conversation_id := Some "query-456" |}.

End Cases.

(** ** Strings and logs *)

Lemma truthy_named (s : string) : Py.truthy s = true <-> s <> "".
Proof. destruct s; simpl; split; intros H; congruence. Qed.

Lemma calls_to_app m (l1 l2 : list Event) :
  calls_to m (l1 ++ l2) = calls_to m l1 + calls_to m l2.
Proof. unfold calls_to. now rewrite List.filter_app, length_app. Qed.

Lemma calls_to_call_same m c g : calls_to m [Call m c g] = 1.
Proof. unfold calls_to. simpl. now rewrite String.eqb_refl. Qed.

Lemma calls_to_call_other m m' c g : m <> m' -> calls_to m [Call m' c g] = 0.
Proof.
  intros Hne. unfold calls_to. simpl.
  destruct (String.eqb_spec m m'); [contradiction | reflexivity].
Qed.

Lemma calls_to_sleep m d : calls_to m [Sleep d] = 0.
Proof. reflexivity. Qed.

Lemma calls_to_cons m ev (l : list Event) :
  calls_to m (ev :: l) = calls_to m [ev] + calls_to m l.
Proof. apply (calls_to_app m [ev] l). Qed.

Lemma sleeps_app (l1 l2 : list Event) : sleeps (l1 ++ l2) = sleeps l1 ++ sleeps l2.
Proof. unfold sleeps. apply flat_map_app. Qed.

Lemma calls_to_backoff_same base m c g n : forall a,
  calls_to m (backoff_log base m c g a n) = n.
Proof.
  induction n as [|n IH]; intros a; [reflexivity|].
  cbn [backoff_log].
  rewrite calls_to_cons, calls_to_call_same, calls_to_cons, calls_to_sleep, IH.
  reflexivity.
Qed.

Lemma calls_to_backoff_other base m m' c g n : m <> m' -> forall a,
  calls_to m (backoff_log base m' c g a n) = 0.
Proof.
  intros Hne. induction n as [|n IH]; intros a; [reflexivity|].
  cbn [backoff_log].
  rewrite calls_to_cons, calls_to_call_other by assumption.
  rewrite calls_to_cons, calls_to_sleep, IH. reflexivity.
Qed.

Lemma sleeps_backoff base m c g n : forall a,
  sleeps (backoff_log base m c g a n)
  = map (fun i => (base * 2 ^ Z.of_nat i)%Z) (seq a n).
Proof.
  induction n as [|n IH]; intros a; [reflexivity|].
  cbn [backoff_log seq map]. rewrite <- IH. reflexivity.
Qed.

(** ** The retry loop of one model *)

Section RetryLoop.

Variable P : Provider.
Variable self : CognizanceAgent.
Variables (c : list Content) (g : GenerateContentConfig).

(** A candidate with an empty name is passed over without any call. *)
Lemma retry_loop_unnamed attempts st :
  retry_loop P self "" c g attempts st = (None, st).
Proof. induction attempts as [|a l IH]; simpl; auto. Qed.

Variable A : string.
Hypothesis A_named : A <> "".

Lemma retry_loop_step attempt later st :
  retry_loop P self A c g (attempt :: later) st
  = match P (log st) A c g with
    | Text answer =>
        (Some {| success := true; response := answer;
                 model_used := Some A; error := None |},
         {| last_error := last_error st; log := log st ++ [Call A c g] |})
    | Raise e =>
        if is_quota_error e then
          if (attempt <? max_retries self - 1)%nat then
            retry_loop P self A c g later
              {| last_error := Some e;
                 log := (log st ++ [Call A c g])
                        ++ [Sleep (base_retry_delay self * 2 ^ Z.of_nat attempt)] |}
          else (None, {| last_error := Some e; log := log st ++ [Call A c g] |})
        else
          (Some {| success := false;
                   response := terminal_error_message (exc_str e);
                   model_used := None;
                   error := Some (exc_str e) |},
           {| last_error := last_error st; log := log st ++ [Call A c g] |})
    end.
Proof.
  cbn [retry_loop].
  apply truthy_named in A_named. rewrite A_named. reflexivity.
Qed.

(** [j] transient failures, then an answer, with attempts to spare: the
    loop returns the answer after [j] backoffs. *)
Lemma retry_loop_recovers answer n : forall a j st,
  a + n = max_retries self ->
  j < n ->
  (forall i, i < j -> fails_transiently_at P A c g (calls_to A (log st) + i)) ->
  answers_at P A c g (calls_to A (log st) + j) answer ->
  exists le,
    retry_loop P self A c g (seq a n) st
    = (Some {| success := true; response := answer;
               model_used := Some A; error := None |},
       {| last_error := le;
          log := log st ++ backoff_log (base_retry_delay self) A c g a j ++ [Call A c g] |}).
Proof.
  induction n as [|n IH]; intros a j st Hbudget Hj Hfail Hok; [lia|].
  cbn [seq]. rewrite retry_loop_step.
  destruct j as [|j].
  - rewrite (Hok (log st)) by lia. eexists. reflexivity.
  - destruct (Hfail 0 ltac:(lia) (log st) ltac:(lia)) as (e & -> & ->).
    replace (a <? max_retries self - 1)%nat with true
      by (symmetry; apply Nat.ltb_lt; lia).
    set (st' := {| last_error := Some e; log := _ |}).
    assert (Hcalls : calls_to A (log st') = S (calls_to A (log st))).
    { subst st'. cbn [log].
      rewrite !calls_to_app, calls_to_call_same, calls_to_sleep. lia. }
    destruct (IH (S a) j st') as (le & ->).
    + lia.
    + lia.
    + intros i Hi. rewrite Hcalls.
      replace (S (calls_to A (log st)) + i) with (calls_to A (log st) + S i) by lia.
      apply Hfail. lia.
    + rewrite Hcalls.
      replace (S (calls_to A (log st)) + j) with (calls_to A (log st) + S j) by lia.
      exact Hok.
    + exists le. subst st'. cbn [log backoff_log].
      rewrite <- !app_assoc. reflexivity.
Qed.

(** Transient failures on every attempt left: the loop gives the model up
    after the last attempt, without sleeping again, and remembers the
    error of that attempt. *)
Lemma retry_loop_exhausts n : forall a st,
  a + n = max_retries self ->
  0 < n ->
  (forall i, i < n -> fails_transiently_at P A c g (calls_to A (log st) + i)) ->
  exists e,
    is_quota_error e = true /\
    P (log st ++ backoff_log (base_retry_delay self) A c g a (n - 1)) A c g = Raise e /\
    retry_loop P self A c g (seq a n) st
    = (None,
       {| last_error := Some e;
          log := log st ++ backoff_log (base_retry_delay self) A c g a (n - 1) ++ [Call A c g] |}).
Proof.
  induction n as [|n IH]; intros a st Hbudget Hn Hfail; [lia|].
  cbn [seq]. rewrite retry_loop_step.
  destruct (Hfail 0 ltac:(lia) (log st) ltac:(lia)) as (e & He & Hq).
  rewrite He, Hq.
  destruct n as [|n].
  - replace (a <? max_retries self - 1)%nat with false
      by (symmetry; apply Nat.ltb_ge; lia).
    exists e. cbn [Nat.sub backoff_log]. rewrite app_nil_r.
    repeat split; assumption.
  - replace (a <? max_retries self - 1)%nat with true
      by (symmetry; apply Nat.ltb_lt; lia).
    set (st' := {| last_error := Some e; log := _ |}).
    assert (Hcalls : calls_to A (log st') = S (calls_to A (log st))).
    { subst st'. cbn [log].
      rewrite !calls_to_app, calls_to_call_same, calls_to_sleep. lia. }
    destruct (IH (S a) st') as (e' & Hq' & He' & ->).
    + lia.
    + lia.
    + intros i Hi. rewrite Hcalls.
      replace (S (calls_to A (log st)) + i) with (calls_to A (log st) + S i) by lia.
      apply Hfail. lia.
    + exists e'. subst st'. cbn [log] in *.
      replace (S (S n) - 1) with (S (S n - 1)) by lia.
      cbn [backoff_log]. rewrite <- !app_assoc in *. cbn [app] in *.
      repeat split; assumption.
Qed.

(** Any other exception on the next call ends the whole query. *)
Lemma retry_loop_terminal e attempt later st :
  P (log st) A c g = Raise e ->
  is_quota_error e = false ->
  retry_loop P self A c g (attempt :: later) st
  = (Some {| success := false;
             response := terminal_error_message (exc_str e);
             model_used := None;
             error := Some (exc_str e) |},
     {| last_error := last_error st; log := log st ++ [Call A c g] |}).
Proof. intros He Hq. rewrite retry_loop_step, He, Hq. reflexivity. Qed.

(** With at least one attempt, the first thing the loop does is to call
    the provider on [A]. *)
Lemma retry_loop_calls_first attempts : forall st,
  attempts <> [] ->
  exists later,
    log (snd (retry_loop P self A c g attempts st))
    = log st ++ Call A c g :: later.
Proof.
  induction attempts as [|a l IH]; intros st Hne; [congruence|].
  rewrite retry_loop_step.
  destruct (P (log st) A c g) as [answer|e]; [exists []; reflexivity|].
  destruct (is_quota_error e); [|exists []; reflexivity].
  destruct (a <? max_retries self - 1)%nat; [|exists []; reflexivity].
  destruct l as [|a' l'].
  - eexists. cbn [retry_loop snd log]. rewrite <- app_assoc. reflexivity.
  - destruct (IH {| last_error := Some e;
                    log := (log st ++ [Call A c g])
                           ++ [Sleep (base_retry_delay self * 2 ^ Z.of_nat a)] |})
      as (later & ->); [congruence|].
    cbn [log]. eexists. rewrite <- !app_assoc. reflexivity.
Qed.

End RetryLoop.

(** ** The loop over the candidates *)

Lemma init_inv settings prompt self :
  CognizanceAgent_init settings prompt = Some self ->
  max_retries self = 3 /\ base_retry_delay self = 1%Z /\
  model_names self = google_model settings :: fallback_models_list settings.
Proof.
  unfold CognizanceAgent_init.
  destruct (Py.truthy (google_api_key settings)); [|discriminate].
  intros [= <-]. auto.
Qed.

Section ModelLoop.

Variable P : Provider.
Variable self : CognizanceAgent.
Variables (c : list Content) (g : GenerateContentConfig).
Hypothesis budget : 0 < max_retries self.

(** Every call on every candidate fails transiently: each candidate gets
    its whole budget, in list order, and the error kept at the end is the
    one raised by the very last call. *)
Lemma model_loop_exhausts candidates : forall st,
  Forall (fun m => m <> "") candidates ->
  (forall m k, In m candidates -> fails_transiently_at P m c g k) ->
  exists st',
    model_loop P self c g candidates st = (None, st') /\
    log st' = log st ++ flat_map (exhausted_log self c g) candidates /\
    forall earlier L, candidates = earlier ++ [L] ->
      exists e,
        last_error st' = Some e /\ is_quota_error e = true /\
        P (log st ++ flat_map (exhausted_log self c g) earlier
             ++ backoff_log (base_retry_delay self) L c g 0 (max_retries self - 1))
          L c g = Raise e.
Proof.
  induction candidates as [|m ms IH]; intros st Hnamed Hfail.
  - exists st. cbn. rewrite app_nil_r. repeat split.
    intros [|x earlier] L H; discriminate.
  - apply Forall_cons_1 in Hnamed as [Hm Hms].
    destruct (retry_loop_exhausts P self c g m Hm (max_retries self) 0 st)
      as (e & Hq & He & Hrun); [lia | lia | |].
    { intros i _. apply Hfail. now left. }
    cbn [model_loop]. rewrite Hrun.
    set (st1 := {| last_error := Some e; log := _ |}).
    destruct (IH st1 Hms) as (st' & Hloop & Hlog & Hlast).
    { intros m' k Hin. apply Hfail. now right. }
    exists st'. split; [exact Hloop|]. split.
    + rewrite Hlog. subst st1. cbn [log flat_map]. unfold exhausted_log.
      rewrite <- !app_assoc. reflexivity.
    + intros earlier L Heq. destruct earlier as [|x earlier'].
      * cbn [app] in Heq. injection Heq as -> ->.
        cbn [model_loop] in Hloop. injection Hloop as <-.
        exists e. cbn [flat_map app]. subst st1. cbn [last_error]. auto.
      * cbn [app] in Heq. injection Heq as -> ->.
        destruct (Hlast earlier' L eq_refl) as (e' & Hle & Hq' & He').
        exists e'. repeat split; try assumption.
        subst st1. cbn [log flat_map] in *. unfold exhausted_log in *.
        rewrite <- !app_assoc in *. exact He'.
Qed.

End ModelLoop.

(** ** [process_query] *)

(** A non-capacity error on the first call of the query. *)
Lemma process_query_terminal
    (P : Provider) (settings : Settings) (prompt : string) (self : CognizanceAgent)
    (built : CognizanceAgent_init settings prompt = Some self)
    (user_input : string) (chat_history : option (list Message))
    (preferred_model : option string) (temperature : option Q)
    (max_output_tokens : option Z) (A : string) (rest : list string) (e : Exc) :
  let contents := query_contents user_input chat_history in
  let config := query_config self settings temperature max_output_tokens in
  model_candidates self preferred_model = A :: rest ->
  A <> "" ->
  P [] A contents config = Raise e ->
  is_quota_error e = false ->
  process_query P self settings user_input chat_history preferred_model
    temperature max_output_tokens
  = ({| success := false;
        response := terminal_error_message (exc_str e);
        model_used := None;
        error := Some (exc_str e) |},
     [Call A contents config]).
Proof.
  intros contents config Hcand HA He Hq.
  destruct (init_inv _ _ _ built) as (Hmax & _ & _).
  unfold process_query. rewrite Hcand. cbn [model_loop].
  rewrite Hmax. cbn [seq]. fold contents config.
  rewrite (retry_loop_terminal P self contents config A HA e) by assumption.
  reflexivity.
Qed.

(** C2 -- Retry with backoff on the same model.  The agent is the one
    [__init__] builds (3 attempts, base delay 1) and [A] is the first
    candidate.  If the provider answers the first [N < 3] calls to [A] with
    rate-limit, too-many-requests or unavailable errors and the next one
    with a text, [process_query] returns success with that text and
    [model_used = A]; its interactions are exactly [N] failed calls to [A],
    each followed by a sleep, and the successful call: [N + 1] calls to [A],
    none to any other model, and the sleeps are [1 * 2^0, ..., 1 * 2^(N-1)]
    in this order. *)
Theorem retry_same_model_with_backoff
    (P : Provider) (settings : Settings) (prompt : string) (self : CognizanceAgent)
    (user_input : string) (chat_history : option (list Message))
    (preferred_model : option string) (temperature : option Q)
    (max_output_tokens : option Z)
    (A : string) (rest : list string) (N : nat) (answer : string) :
  let contents := query_contents user_input chat_history in
  let config := query_config self settings temperature max_output_tokens in
  let made := backoff_log 1 A contents config 0 N ++ [Call A contents config] in
  CognizanceAgent_init settings prompt = Some self ->
  model_candidates self preferred_model = A :: rest ->
  A <> "" ->
  N < 3 ->
  (forall k, k < N -> fails_transiently_at P A contents config k) ->
  answers_at P A contents config N answer ->
  process_query P self settings user_input chat_history preferred_model
    temperature max_output_tokens
  = ({| success := true; response := answer;
        model_used := Some A; error := None |}, made)
  /\ calls_to A made = N + 1
  /\ (forall m, m <> A -> calls_to m made = 0)
  /\ sleeps made = map (fun i => (1 * 2 ^ Z.of_nat i)%Z) (seq 0 N).
Proof.
  intros contents config made Hinit Hcand HA HN Hfail Hok.
  destruct (init_inv _ _ _ Hinit) as (Hmax & Hbase & _).
  split; [|split; [|split]].
  - unfold process_query. rewrite Hcand. cbn [model_loop].
    fold contents config.
    destruct (retry_loop_recovers P self contents config A HA answer
                (max_retries self) 0 N {| last_error := None; log := [] |})
      as (le & ->); try assumption; try lia.
    rewrite Hbase. reflexivity.
  - subst made. rewrite calls_to_app, calls_to_backoff_same, calls_to_call_same.
    reflexivity.
  - intros m Hm. subst made.
    rewrite calls_to_app, calls_to_backoff_other, calls_to_call_other by assumption.
    reflexivity.
  - subst made. rewrite sleeps_app, sleeps_backoff. cbn. apply app_nil_r.
Qed.

(** C3 -- Failover in list order.  With candidates [A :: B :: ...], if the
    provider answers all 3 attempts on [A] with transient errors and the
    first call to [B] with a text, [process_query] returns success with
    [model_used = B] after exactly the calls [A, A, A, B] in this order
    (3 to [A] with backoffs of 1 and 2 between them, then 1 to [B]). *)
Theorem failover_to_next_candidate
    (P : Provider) (settings : Settings) (prompt : string) (self : CognizanceAgent)
    (user_input : string) (chat_history : option (list Message))
    (preferred_model : option string) (temperature : option Q)
    (max_output_tokens : option Z)
    (A B : string) (rest : list string) (answer : string) :
  let contents := query_contents user_input chat_history in
  let config := query_config self settings temperature max_output_tokens in
  let made := [Call A contents config; Sleep 1; Call A contents config; Sleep 2;
               Call A contents config; Call B contents config] in
  CognizanceAgent_init settings prompt = Some self ->
  model_candidates self preferred_model = A :: B :: rest ->
  A <> "" ->
  B <> "" ->
  (forall k, k < 3 -> fails_transiently_at P A contents config k) ->
  answers_at P B contents config 0 answer ->
  process_query P self settings user_input chat_history preferred_model
    temperature max_output_tokens
  = ({| success := true; response := answer;
        model_used := Some B; error := None |}, made)
  /\ calls_to A made = 3
  /\ calls_to B made = 1
  /\ (forall m, m <> A -> m <> B -> calls_to m made = 0).
Proof.
  intros contents config made Hinit Hcand HA HB Hfail Hok.
  destruct (init_inv _ _ _ Hinit) as (Hmax & Hbase & _).
  assert (HAB : A <> B).
  { intros ->. destruct (Hfail 0 ltac:(lia) [] eq_refl) as (e & He & _).
    rewrite (Hok [] eq_refl) in He. discriminate. }
  assert (HBA : B <> A) by congruence.
  split; [|split; [|split]].
  - unfold process_query. rewrite Hcand. cbn [model_loop].
    fold contents config.
    destruct (retry_loop_exhausts P self contents config A HA
                (max_retries self) 0 {| last_error := None; log := [] |})
      as (e & _ & _ & ->); try lia.
    { intros i Hi. apply Hfail. cbn. lia. }
    set (st1 := {| last_error := Some e; log := _ |}).
    assert (Hnone : calls_to B (log st1) = 0).
    { subst st1. cbn [log app].
      rewrite calls_to_app, calls_to_backoff_other, calls_to_call_other by assumption.
      reflexivity. }
    destruct (retry_loop_recovers P self contents config B HB answer
                (max_retries self) 0 0 st1) as (le & ->); try lia.
    { rewrite Hnone. exact Hok. }
    subst st1. cbn [log backoff_log app].
    rewrite Hmax, Hbase. reflexivity.
  - subst made. unfold calls_to. cbn [List.filter is_call_to].
    rewrite String.eqb_refl.
    destruct (String.eqb_spec A B); [contradiction | reflexivity].
  - subst made. unfold calls_to. cbn [List.filter is_call_to].
    rewrite String.eqb_refl.
    destruct (String.eqb_spec B A); [contradiction | reflexivity].
  - intros m HmA HmB. subst made. unfold calls_to. cbn [List.filter is_call_to].
    destruct (String.eqb_spec m A); [contradiction|].
    destruct (String.eqb_spec m B); [contradiction | reflexivity].
Qed.

(** C4 -- Terminal-error short-circuit.  If the provider answers the first
    call, on the first candidate [A], with an exception outside the capacity
    classes, [process_query] returns a failure result at once: that call is
    its only interaction, so [A] is not retried and no other candidate is
    called, whatever further candidates are configured. *)
Theorem terminal_error_short_circuits
    (P : Provider) (settings : Settings) (prompt : string) (self : CognizanceAgent)
    (user_input : string) (chat_history : option (list Message))
    (preferred_model : option string) (temperature : option Q)
    (max_output_tokens : option Z)
    (A : string) (rest : list string) (e : Exc) :
  let contents := query_contents user_input chat_history in
  let config := query_config self settings temperature max_output_tokens in
  let out := process_query P self settings user_input chat_history
               preferred_model temperature max_output_tokens in
  CognizanceAgent_init settings prompt = Some self ->
  model_candidates self preferred_model = A :: rest ->
  A <> "" ->
  P [] A contents config = Raise e ->
  is_quota_error e = false ->
  success (fst out) = false
  /\ error (fst out) = Some (exc_str e)
  /\ snd out = [Call A contents config]
  /\ calls_to A (snd out) = 1
  /\ sleeps (snd out) = []
  /\ (forall B, B <> A -> calls_to B (snd out) = 0).
Proof.
  intros contents config out Hinit Hcand HA He Hq. subst out.
  rewrite (process_query_terminal P settings prompt self Hinit user_input
             chat_history preferred_model temperature max_output_tokens
             A rest e Hcand HA He Hq).
  cbn [fst snd success error].
  repeat split.
  - apply calls_to_call_same.
  - intros B HB. now apply calls_to_call_other.
Qed.

Lemma append_empty_r (s : string) : s +:+ "" = s.
Proof.
  induction s as [|a s IH]; [reflexivity|].
  change (String a (s +:+ "") = String a s). now rewrite IH.
Qed.

Lemma terminal_detail_embedded (detail : string) :
  embedded detail (terminal_error_message detail).
Proof.
  exists terminal_apology, "". unfold terminal_error_message.
  now rewrite append_empty_r.
Qed.

(** C6 -- All candidates exhausted.  If every call on every candidate is
    answered with a transient error, [process_query] gives each candidate
    its 3 attempts in list order and returns [success = false] with the
    quota-exhaustion message; the [error] field is [str] of the last error
    observed, which is the one the provider raised on the final call, made
    to the last candidate [L]. *)
Theorem all_candidates_exhausted
    (P : Provider) (settings : Settings) (prompt : string) (self : CognizanceAgent)
    (user_input : string) (chat_history : option (list Message))
    (preferred_model : option string) (temperature : option Q)
    (max_output_tokens : option Z)
    (earlier : list string) (L : string) :
  let contents := query_contents user_input chat_history in
  let config := query_config self settings temperature max_output_tokens in
  let out := process_query P self settings user_input chat_history
               preferred_model temperature max_output_tokens in
  CognizanceAgent_init settings prompt = Some self ->
  model_candidates self preferred_model = earlier ++ [L] ->
  Forall (fun m => m <> "") (earlier ++ [L]) ->
  (forall m k, In m (earlier ++ [L]) -> fails_transiently_at P m contents config k) ->
  exists e before,
    is_quota_error e = true
    /\ P before L contents config = Raise e
    /\ snd out = before ++ [Call L contents config]
    /\ fst out = {| success := false; response := quota_error_message;
                    model_used := None; error := Some (exc_str e) |}
    /\ snd out
       = flat_map (fun m => [Call m contents config; Sleep 1;
                             Call m contents config; Sleep 2;
                             Call m contents config])
           (earlier ++ [L]).
Proof.
  intros contents config out Hinit Hcand Hnamed Hfail.
  destruct (init_inv _ _ _ Hinit) as (Hmax & Hbase & _).
  destruct (model_loop_exhausts P self contents config ltac:(lia)
              (earlier ++ [L]) {| last_error := None; log := [] |} Hnamed Hfail)
    as (st' & Hloop & Hlog & Hlast).
  destruct (Hlast earlier L eq_refl) as (e & Hle & Hq & He).
  assert (Hbudget : forall m, exhausted_log self contents config m
            = [Call m contents config; Sleep 1; Call m contents config; Sleep 2;
               Call m contents config]).
  { intros m. unfold exhausted_log. rewrite Hmax, Hbase. reflexivity. }
  assert (Hout : out
            = ({| success := false; response := quota_error_message;
                  model_used := None; error := Some (exc_str e) |}, log st')).
  { subst out. unfold process_query. fold contents config.
    rewrite Hcand, Hloop, Hle. reflexivity. }
  cbn [log app] in Hlog, He.
  exists e, (flat_map (exhausted_log self contents config) earlier
             ++ backoff_log (base_retry_delay self) L contents config 0
                  (max_retries self - 1)).
  rewrite Hout. cbn [fst snd].
  repeat split; try assumption.
  - rewrite Hlog, flat_map_app. cbn [flat_map]. unfold exhausted_log at 2.
    rewrite app_nil_r, <- !app_assoc. reflexivity.
  - rewrite Hlog. apply flat_map_ext. exact Hbudget.
Qed.

(** ** The windowing of [chat] *)

(** What [chat] does with a history above the threshold, by cache state. *)
Lemma window_history_long (req : ChatRequest) (now : Z)
    (cache : gmap string CacheEntry) (full_history : list Message) :
  chat_history req = Some full_history ->
  MAX_TURNS < length full_history ->
  let older := take (length full_history - KEEP_LAST) full_history in
  let recent := drop (length full_history - KEEP_LAST) full_history in
  window_history req now cache
  = match cached_entry (conversation_id req) cache with
    | Some (cid, entry) =>
        if (now <? expires_at entry)%Z then
          {| history :=
               Some ({| role := "assistant"; content := summary entry |} :: recent);
             background_tasks := [];
             cache_after := cache |}
        else
          {| history := Some recent;
             background_tasks := [];
             cache_after := delete cid cache |}
    | None =>
        {| history := Some recent;
           background_tasks :=
             [{| conv_id := conversation_id req; older_turns := older |}];
           cache_after := cache |}
    end.
Proof.
  intros Hh Hlen older recent. unfold window_history. rewrite Hh.
  destruct full_history as [|m l]; [cbn in Hlen; lia|].
  apply Nat.ltb_lt in Hlen. rewrite Hlen. reflexivity.
Qed.

Lemma cached_entry_found (cid : string) (entry : CacheEntry)
    (cache : gmap string CacheEntry) :
  cid <> "" -> cache !! cid = Some entry ->
  cached_entry (Some cid) cache = Some (cid, entry).
Proof.
  intros Hcid Hin. unfold cached_entry.
  apply truthy_named in Hcid. now rewrite Hcid, Hin.
Qed.

(** An entry found expired is deleted and the recent turns go out alone;
    nothing is added to the background tasks on this path. *)
Lemma window_history_expired (req : ChatRequest) (now : Z)
    (cache : gmap string CacheEntry) (full_history : list Message)
    (cid : string) (entry : CacheEntry) :
  chat_history req = Some full_history ->
  MAX_TURNS < length full_history ->
  conversation_id req = Some cid ->
  cid <> "" ->
  cache !! cid = Some entry ->
  (expires_at entry <= now)%Z ->
  window_history req now cache
  = {| history := Some (drop (length full_history - KEEP_LAST) full_history);
       background_tasks := [];
       cache_after := delete cid cache |}.
Proof.
  intros Hh Hlen Hid Hcid Hin Hexp.
  rewrite (window_history_long req now cache full_history Hh Hlen), Hid.
  rewrite (cached_entry_found cid entry cache Hcid Hin).
  replace (now <? expires_at entry)%Z with false
    by (symmetry; apply Z.ltb_ge; exact Hexp).
  reflexivity.
Qed.

(** No entry under the identifier: the recent turns go out alone and the
    summarization of the older ones is added to the background tasks. *)
Lemma window_history_miss (req : ChatRequest) (now : Z)
    (cache : gmap string CacheEntry) (full_history : list Message) (cid : string) :
  chat_history req = Some full_history ->
  MAX_TURNS < length full_history ->
  conversation_id req = Some cid ->
  cache !! cid = None ->
  window_history req now cache
  = {| history := Some (drop (length full_history - KEEP_LAST) full_history);
       background_tasks :=
         [{| conv_id := Some cid;
             older_turns := take (length full_history - KEEP_LAST) full_history |}];
       cache_after := cache |}.
Proof.
  intros Hh Hlen Hid Hin.
  rewrite (window_history_long req now cache full_history Hh Hlen), Hid.
  unfold cached_entry. rewrite Hin. now destruct (Py.truthy cid).
Qed.

(** The tasks and the cache [chat] leaves are those of its windowing part. *)
Lemma chat_tasks_added P agent settings req now (cache : gmap string CacheEntry) :
  tasks_added (chat P agent settings req now cache)
  = background_tasks (window_history req now cache).
Proof. unfold chat. now destruct (process_query _ _ _ _ _ _ _ _). Qed.

Lemma chat_cache_left P agent settings req now (cache : gmap string CacheEntry) :
  cache_left (chat P agent settings req now cache)
  = cache_after (window_history req now cache).
Proof. unfold chat. now destruct (process_query _ _ _ _ _ _ _ _). Qed.

Lemma chat_interactions P agent settings req now (cache : gmap string CacheEntry) :
  interactions (chat P agent settings req now cache)
  = snd (process_query P agent settings (message req)
           (history (window_history req now cache)) None None None).
Proof. unfold chat. now destruct (process_query _ _ _ _ _ _ _ _). Qed.

(** C7 -- Short histories pass through.  For a history of at most 15
    turns the windowing adds no background task and leaves the cache as it
    is; the history handed to [process_query] is the request's own (an
    empty list is handed over as [None], which [process_query] reads as the
    same empty sequence of turns), so [chat] answers with the result of
    [process_query] on the unchanged history. *)
Theorem short_history_passes_through
    (P : Provider) (agent : CognizanceAgent) (settings : Settings)
    (req : ChatRequest) (now : Z) (cache : gmap string CacheEntry) :
  let w := window_history req now cache in
  let out := process_query P agent settings (message req) (chat_history req)
               None None None in
  length (default [] (chat_history req)) <= MAX_TURNS ->
  (history w = chat_history req \/ (chat_history req = Some [] /\ history w = None))
  /\ _build_history (history w) = _build_history (chat_history req)
  /\ background_tasks w = []
  /\ cache_after w = cache
  /\ chat P agent settings req now cache
     = {| reply := {| resp_success := success (fst out);
                      resp_response := response (fst out);
                      resp_error := error (fst out) |};
          interactions := snd out;
          tasks_added := [];
          cache_left := cache |}.
Proof.
  intros w out Hlen. subst w out. unfold chat, window_history.
  destruct (chat_history req) as [[|m l]|] eqn:Hh; cbn [default] in Hlen.
  - cbn [history background_tasks cache_after].
    repeat split; auto.
    change (process_query P agent settings (message req) None None None None)
      with (process_query P agent settings (message req) (Some []) None None None).
    now destruct (process_query _ _ _ _ _ _ _ _).
  - replace (MAX_TURNS <? length (m :: l))%nat with false
      by (symmetry; apply Nat.ltb_ge; exact Hlen).
    cbn [history background_tasks cache_after].
    repeat split; auto.
    now destruct (process_query _ _ _ _ _ _ _ _).
  - cbn [history background_tasks cache_after].
    repeat split; auto.
    now destruct (process_query _ _ _ _ _ _ _ _).
Qed.

(** C8 -- Long histories keep the last 8 turns verbatim.  For a history of
    more than 15 turns, [recent] is the suffix of exactly 8 = min(8, len)
    turns and [older] the prefix before it.  Whatever the cache holds and
    whatever the clock says, the history handed to [process_query] is
    [recent] itself, or [recent] behind one assistant turn carrying a cached
    summary; a background task, when one is added, is the summarization of
    [older]. *)
Theorem long_history_keeps_last_eight
    (req : ChatRequest) (now : Z) (cache : gmap string CacheEntry)
    (full_history : list Message) :
  let w := window_history req now cache in
  let older := take (length full_history - KEEP_LAST) full_history in
  let recent := drop (length full_history - KEEP_LAST) full_history in
  chat_history req = Some full_history ->
  MAX_TURNS < length full_history ->
  length recent = 8
  /\ length recent = Nat.min 8 (length full_history)
  /\ older ++ recent = full_history
  /\ (history w = Some recent
      \/ exists entry,
           history w
           = Some ({| role := "assistant"; content := summary entry |} :: recent))
  /\ (background_tasks w = []
      \/ background_tasks w
         = [{| conv_id := conversation_id req; older_turns := older |}]).
Proof.
  intros w older recent Hh Hlen.
  assert (H8 : length recent = 8).
  { subst recent. rewrite length_drop. unfold MAX_TURNS, KEEP_LAST in *. lia. }
  split; [exact H8|]. split.
  { rewrite H8. unfold MAX_TURNS in Hlen. lia. }
  split; [apply take_drop|].
  subst w. rewrite (window_history_long req now cache full_history Hh Hlen).
  fold older recent.
  destruct (cached_entry (conversation_id req) cache) as [[cid entry]|].
  - destruct (now <? expires_at entry)%Z; cbn [history background_tasks]; eauto.
  - cbn [history background_tasks]. eauto.
Qed.

(** ** The summarization job *)

Lemma do_cache P agent settings job now (cache : gmap string CacheEntry) :
  fst (_do P agent settings job now cache)
  = store_summary (conv_id job)
      (fst (process_query P agent settings summary_prompt
              (Some (older_turns job)) (Some (cheaper_model settings))
              (Some (Qmake 2 10)) (Some 200%Z)))
      now cache.
Proof. unfold _do. now destruct (process_query _ _ _ _ _ _ _ _). Qed.

Lemma do_interactions P agent settings job now (cache : gmap string CacheEntry) :
  snd (_do P agent settings job now cache)
  = snd (process_query P agent settings summary_prompt
           (Some (older_turns job)) (Some (cheaper_model settings))
           (Some (Qmake 2 10)) (Some 200%Z)).
Proof. unfold _do. now destruct (process_query _ _ _ _ _ _ _ _). Qed.

Lemma store_summary_named cid r now (cache : gmap string CacheEntry) :
  cid <> "" -> success r = true -> response r <> "" ->
  store_summary (Some cid) r now cache
  = <[cid := {| summary := Py.strip (response r);
                expires_at := (now + SUMMARY_TTL_SECONDS)%Z |}]> cache.
Proof.
  intros Hcid Hs Hr. unfold store_summary.
  apply truthy_named in Hcid, Hr. now rewrite Hs, Hr, Hcid.
Qed.

Lemma store_summary_anonymous r now (cache : gmap string CacheEntry) :
  store_summary None r now cache = cache.
Proof. unfold store_summary. now destruct (success r && Py.truthy (response r)). Qed.

(** The entries of [fallback_models_list] are never empty names. *)
Lemma fallback_models_named settings :
  Forall (fun m => m <> "") (fallback_models_list settings).
Proof.
  unfold fallback_models_list. apply List.Forall_forall. intros m Hin.
  apply in_map_iff in Hin as (raw & <- & Hraw).
  apply filter_In in Hraw as [_ Hkept]. now apply truthy_named.
Qed.

Lemma cheaper_model_named settings :
  google_model settings <> "" -> cheaper_model settings <> "".
Proof.
  intros Hprimary. unfold cheaper_model, Py.last_or.
  pose proof (fallback_models_named settings) as Hall.
  induction (fallback_models_list settings) as [|m l IH]; [exact Hprimary|].
  apply Forall_cons_1 in Hall as [Hm Hl].
  destruct l as [|m' l']; [exact Hm | exact (IH Hl)].
Qed.

(** With a named first candidate and a positive budget, the first
    interaction of [process_query] is a call to that candidate. *)
Lemma process_query_calls_first P self settings user_input chat_history
    preferred_model temperature max_output_tokens A rest :
  0 < max_retries self ->
  model_candidates self preferred_model = A :: rest ->
  A <> "" ->
  exists later,
    snd (process_query P self settings user_input chat_history preferred_model
           temperature max_output_tokens)
    = Call A (query_contents user_input chat_history)
        (query_config self settings temperature max_output_tokens) :: later.
Proof.
  intros Hbudget Hcand HA. unfold process_query. rewrite Hcand. cbn [model_loop].
  set (c := query_contents user_input chat_history).
  set (g := query_config self settings temperature max_output_tokens).
  destruct (retry_loop_calls_first P self c g A HA (seq 0 (max_retries self))
              {| last_error := None; log := [] |}) as (later & Hlog).
  { destruct (max_retries self); [lia | discriminate]. }
  cbn [log app] in Hlog.
  destruct (retry_loop P self A c g (seq 0 (max_retries self)) _) as [[r|] st1];
    cbn [snd] in Hlog.
  - exists later. exact Hlog.
  - assert (Hgrow : forall candidates st,
              exists more, log (snd (model_loop P self c g candidates st))
                           = log st ++ more).
    { induction candidates as [|m ms IH]; intros st.
      - exists []. cbn. now rewrite app_nil_r.
      - cbn [model_loop].
        destruct (String.eqb_spec m "") as [->|Hm].
        + rewrite retry_loop_unnamed. apply IH.
        + destruct (retry_loop_calls_first P self c g m Hm (seq 0 (max_retries self)) st)
            as (l1 & Hl1); [destruct (max_retries self); [lia | discriminate]|].
          destruct (retry_loop P self m c g (seq 0 (max_retries self)) st)
            as [[r|] st2]; cbn [snd] in Hl1.
          * eexists. exact Hl1.
          * destruct (IH st2) as (more & Hmore). rewrite Hmore, Hl1.
            eexists. rewrite <- app_assoc. reflexivity. }
    destruct (Hgrow rest st1) as (more & Hmore).
    destruct (model_loop P self c g rest st1) as [[r|] st2]; cbn [snd] in *;
      rewrite Hmore, Hlog; eexists; reflexivity.
Qed.

(** C9 -- The cache write of a successful summarization.  When the job's
    query succeeds with a non-empty response for a job keyed by the
    identifier [cid], the cache then maps [cid] to the stripped response
    with [expires_at = now + 21600], [now] being the clock at completion;
    every other identifier keeps what it had; the number of entries is
    unchanged if [cid] had an entry and one more if not; and a second
    successful job for [cid] leaves exactly the cache it would have left
    without the first one. *)
Theorem summarization_overwrites_entry
    (P : Provider) (agent : CognizanceAgent) (settings : Settings)
    (job : SummarizationJob) (cid : string) (now : Z)
    (cache : gmap string CacheEntry) :
  let r := fst (process_query P agent settings summary_prompt
                  (Some (older_turns job)) (Some (cheaper_model settings))
                  (Some (Qmake 2 10)) (Some 200%Z)) in
  let cache' := fst (_do P agent settings job now cache) in
  conv_id job = Some cid ->
  cid <> "" ->
  success r = true ->
  response r <> "" ->
  cache' !! cid = Some {| summary := Py.strip (response r);
                          expires_at := (now + 21600)%Z |}
  /\ (forall other, other <> cid -> cache' !! other = cache !! other)
  /\ size cache' = match cache !! cid with
                   | Some _ => size cache
                   | None => S (size cache)
                   end
  /\ (forall (P2 : Provider) (job2 : SummarizationJob) (now2 : Z),
        let r2 := fst (process_query P2 agent settings summary_prompt
                         (Some (older_turns job2)) (Some (cheaper_model settings))
                         (Some (Qmake 2 10)) (Some 200%Z)) in
        conv_id job2 = Some cid ->
        success r2 = true ->
        response r2 <> "" ->
        fst (_do P2 agent settings job2 now2 cache')
        = fst (_do P2 agent settings job2 now2 cache)
        /\ size (fst (_do P2 agent settings job2 now2 cache')) = size cache').
Proof.
  intros r cache' Hid Hcid Hs Hr. subst cache'.
  rewrite do_cache, Hid. fold r.
  rewrite (store_summary_named cid r now cache Hcid Hs Hr).
  change SUMMARY_TTL_SECONDS with 21600%Z.
  split; [apply lookup_insert_eq|].
  split; [intros other Hne; apply lookup_insert_ne; congruence|].
  split.
  { rewrite map_size_insert. now destruct (cache !! cid). }
  intros P2 job2 now2 r2 Hid2 Hs2 Hr2.
  rewrite !do_cache, Hid2. fold r2.
  rewrite !(store_summary_named cid r2 now2 _ Hcid Hs2 Hr2).
  split; [apply insert_insert_eq|].
  rewrite insert_insert_eq, !map_size_insert. now destruct (cache !! cid).
Qed.

(** ** The statements on the scenarios *)

Lemma scenario_agent_built :
  CognizanceAgent_init Scenario.settings Scenario.prompt = Some Scenario.agent.
Proof. reflexivity. Qed.

(** C1 -- at the failing input.  A request with 16 turns arrives at time
    200 for [query-123], whose cache entry expired at time 100.  [chat]
    deletes the entry and sends the last 8 turns alone, exactly what it sends
    for the same request on an empty cache; but it adds no background task,
    where on the empty cache it adds the summarization of the first 8
    turns. *)
Theorem expired_entry_enqueues_no_summarization :
  let expired := chat Scenario.summarizer Scenario.agent Scenario.settings
                   Scenario.long_request 200 Scenario.stale_cache in
  let missing := chat Scenario.summarizer Scenario.agent Scenario.settings
                   Scenario.long_request 200 ∅ in
  Scenario.stale_cache !! "query-123"
  = Some {| summary := "Earlier: the user asked about dates."; expires_at := 100 |}
  /\ cache_left expired = ∅
  /\ interactions expired
     = [Call Scenario.primary
          (query_contents "And the prizes?" (Some (drop 8 Scenario.long_turns)))
          (generation_config Scenario.agent)]
  /\ interactions expired = interactions missing
  /\ reply expired = reply missing
  /\ tasks_added expired = []
  /\ tasks_added missing
     = [{| conv_id := Some "query-123";
           older_turns := take 8 Scenario.long_turns |}].
Proof. repeat split; vm_compute; reflexivity. Qed.

(** C10 -- at the failing input.  The request of 16 turns for [query-123]
    arrives at time 200 while the cache holds an entry that expired at time
    100: no cached summary is usable (the last 8 turns are sent alone), and
    yet [chat] adds no background task, so there is no summarization job to
    issue a provider call.  The same request without an identifier does get
    the job; started with an event loop running it calls the cheaper model
    and leaves the cache as it was, and started without one it does nothing
    at all. *)
Theorem unusable_summary_schedules_no_job :
  let expired := chat Scenario.summarizer Scenario.agent Scenario.settings
                   Scenario.long_request 200 Scenario.stale_cache in
  let anonymous := chat Scenario.summarizer Scenario.agent Scenario.settings
                     Scenario.anonymous_request 200 Scenario.stale_cache in
  let job := {| conv_id := None; older_turns := take 8 Scenario.long_turns |} in
  history (window_history Scenario.long_request 200 Scenario.stale_cache)
  = Some (drop 8 Scenario.long_turns)
  /\ tasks_added expired = []
  /\ tasks_added anonymous = [job]
  /\ _schedule_summarization Scenario.summarizer Scenario.agent Scenario.settings
       true job 1000 Scenario.stale_cache
     = (Scenario.stale_cache,
        [Call Scenario.cheapest
           (query_contents summary_prompt (Some (take 8 Scenario.long_turns)))
           {| system_instruction := Scenario.prompt;
              temperature := Qmake 2 10;
              max_output_tokens := 200 |}])
  /\ _schedule_summarization Scenario.summarizer Scenario.agent Scenario.settings
       false job 1000 Scenario.stale_cache
     = (Scenario.stale_cache, []).
Proof. repeat split; vm_compute; reflexivity. Qed.

Lemma retry_same_model_with_backoff_witness :
  let c := query_contents "When is the festival?" None in
  let g := generation_config Scenario.agent in
  process_query Scenario.flaky Scenario.agent Scenario.settings
    "When is the festival?" None None None None
  = ({| success := true;
        response := "The festival runs from 13th to 15th March 2026.";
        model_used := Some Scenario.primary; error := None |},
     [Call Scenario.primary c g; Sleep 1; Call Scenario.primary c g; Sleep 2;
      Call Scenario.primary c g]).
Proof.
  intros c g.
  destruct (retry_same_model_with_backoff Scenario.flaky Scenario.settings
              Scenario.prompt Scenario.agent "When is the festival?"
              None None None None Scenario.primary
              ["gemini-2.0-flash"; "gemini-1.5-flash"; "gemini-2.0-flash-lite"]
              2 "The festival runs from 13th to 15th March 2026.")
    as (Hrun & _).
  - reflexivity.
  - reflexivity.
  - discriminate.
  - lia.
  - intros k Hk t Ht.
    exists {| exc_class := ResourceExhausted; exc_str := "429 RESOURCE_EXHAUSTED" |}.
    unfold Scenario.flaky. rewrite Ht.
    destruct k as [|[|k]]; [split; reflexivity | split; reflexivity | lia].
  - intros t Ht. unfold Scenario.flaky. rewrite Ht. reflexivity.
  - exact Hrun.
Defined.

Lemma failover_to_next_candidate_witness :
  let c := query_contents "How do I register?" None in
  let g := generation_config Scenario.agent in
  process_query Scenario.primary_down Scenario.agent Scenario.settings
    "How do I register?" None None None None
  = ({| success := true; response := "Registration is open on the website.";
        model_used := Some "gemini-2.0-flash"; error := None |},
     [Call Scenario.primary c g; Sleep 1; Call Scenario.primary c g; Sleep 2;
      Call Scenario.primary c g; Call "gemini-2.0-flash" c g]).
Proof.
  intros c g.
  destruct (failover_to_next_candidate Scenario.primary_down Scenario.settings
              Scenario.prompt Scenario.agent "How do I register?"
              None None None None Scenario.primary "gemini-2.0-flash"
              ["gemini-1.5-flash"; "gemini-2.0-flash-lite"]
              "Registration is open on the website.")
    as (Hrun & _).
  - reflexivity.
  - reflexivity.
  - discriminate.
  - discriminate.
  - intros k _ t _.
    exists {| exc_class := ServiceUnavailable; exc_str := "503 UNAVAILABLE" |}.
    split; reflexivity.
  - intros t _. reflexivity.
  - exact Hrun.
Defined.

Lemma terminal_error_short_circuits_witness :
  let out := process_query Scenario.rejecting Scenario.agent Scenario.settings
               "When is the festival?" None None None None in
  success (fst out) = false
  /\ snd out = [Call Scenario.primary
                  (query_contents "When is the festival?" None)
                  (generation_config Scenario.agent)]
  /\ calls_to "gemini-2.0-flash" (snd out) = 0.
Proof.
  intros out.
  destruct (terminal_error_short_circuits Scenario.rejecting Scenario.settings
              Scenario.prompt Scenario.agent "When is the festival?"
              None None None None Scenario.primary
              ["gemini-2.0-flash"; "gemini-1.5-flash"; "gemini-2.0-flash-lite"]
              {| exc_class := OtherException; exc_str := "400 INVALID_ARGUMENT" |})
    as (Hfailed & _ & Hmade & _ & _ & Hothers).
  - reflexivity.
  - reflexivity.
  - discriminate.
  - reflexivity.
  - reflexivity.
  - split; [exact Hfailed|]. split; [exact Hmade|].
    apply Hothers. discriminate.
Defined.

(** C5 -- as stated, at a concrete input.  The provider rejects the call
    with [400 INVALID_ARGUMENT]; the failure result has that detail in its
    [error] field, and its [response] ends with the very same text, so the
    detail is not kept out of the user-facing message. *)
Lemma terminal_failure_detail_not_kept_apart :
  ~ detail_kept_apart
      (fst (process_query Scenario.rejecting Scenario.agent Scenario.settings
              "When is the festival?" None None None None)).
Proof.
  intros (detail & Herr & Hapart).
  vm_compute in Herr. injection Herr as <-.
  apply Hapart. exists terminal_apology, "". vm_compute. reflexivity.
Qed.

Lemma all_candidates_exhausted_witness :
  let out := process_query Scenario.saturated Scenario.agent Scenario.settings
               "When is the festival?" None None None None in
  fst out
  = {| success := false; response := quota_error_message; model_used := None;
       error := Some "429 quota exceeded for gemini-2.0-flash-lite" |}
  /\ calls_to Scenario.cheapest (snd out) = 3.
Proof.
  intros out.
  destruct (all_candidates_exhausted Scenario.saturated Scenario.settings
              Scenario.prompt Scenario.agent "When is the festival?"
              None None None None
              [Scenario.primary; "gemini-2.0-flash"; "gemini-1.5-flash"]
              Scenario.cheapest)
    as (e & before & _ & He & _ & Hres & Hmade).
  - reflexivity.
  - reflexivity.
  - repeat (constructor; [discriminate|]). constructor.
  - intros m k _ t _. eexists. split; reflexivity.
  - unfold Scenario.saturated in He. injection He as <-.
    split; [exact Hres|]. fold out in Hmade. rewrite Hmade. reflexivity.
Defined.

Lemma short_history_passes_through_witness :
  let w := window_history Scenario.short_request 200 Scenario.stale_cache in
  history w = Some Scenario.short_turns
  /\ background_tasks w = []
  /\ cache_after w = Scenario.stale_cache.
Proof.
  intros w.
  destruct (short_history_passes_through Scenario.flaky Scenario.agent
              Scenario.settings Scenario.short_request 200 Scenario.stale_cache)
    as (Hsame & _ & Htasks & Hcache & _).
  - cbn. unfold MAX_TURNS. lia.
  - split; [|split; [exact Htasks | exact Hcache]].
    destruct Hsame as [Hsame | [Hempty _]]; [exact Hsame | discriminate Hempty].
Defined.

Lemma long_history_keeps_last_eight_witness :
  let w := window_history Scenario.long_request 50 Scenario.stale_cache in
  length (drop 8 Scenario.long_turns) = 8
  /\ take 8 Scenario.long_turns ++ drop 8 Scenario.long_turns = Scenario.long_turns
  /\ (history w = Some (drop 8 Scenario.long_turns)
      \/ exists entry,
           history w
           = Some ({| role := "assistant"; content := summary entry |}
                     :: drop 8 Scenario.long_turns)).
Proof.
  intros w.
  destruct (long_history_keeps_last_eight Scenario.long_request 50
              Scenario.stale_cache Scenario.long_turns)
    as (Hlen & _ & Hsplit & Hsent & _).
  - reflexivity.
  - cbn. unfold MAX_TURNS. lia.
  - split; [exact Hlen|]. split; [exact Hsplit | exact Hsent].
Defined.

Lemma summarization_overwrites_entry_witness :
  let cache' := fst (_do Scenario.summarizer Scenario.agent Scenario.settings
                       Scenario.keyed_job 1000 Scenario.stale_cache) in
  cache' !! "query-123"
  = Some {| summary := "The user asked about dates and registration.";
            expires_at := 22600 |}
  /\ size cache' = 1.
Proof.
  intros cache'.
  destruct (summarization_overwrites_entry Scenario.summarizer Scenario.agent
              Scenario.settings Scenario.keyed_job "query-123" 1000
              Scenario.stale_cache)
    as (Hentry & _ & Hsize & _).
  - reflexivity.
  - discriminate.
  - reflexivity.
  - vm_compute. discriminate.
  - split; [exact Hentry | exact Hsize].
Defined.

(** ** The expiry sweep *)

Lemma expired_keys_spec now (cache : gmap string CacheEntry) k :
  k ∈ expired_keys now cache
  <-> exists e, cache !! k = Some e /\ (expires_at e <= now)%Z.
Proof.
  unfold expired_keys. rewrite list_elem_of_fmap. split.
  - intros ([k' e] & -> & Hin). apply list_elem_of_filter in Hin as [Hexp Hin].
    apply elem_of_map_to_list in Hin. exists e. auto.
  - intros (e & Hin & Hexp). exists (k, e). split; [reflexivity|].
    apply list_elem_of_filter. split; [exact Hexp|].
    now apply elem_of_map_to_list.
Qed.

Lemma expired_keys_NoDup now (cache : gmap string CacheEntry) :
  NoDup (expired_keys now cache).
Proof.
  unfold expired_keys.
  eapply sublist_NoDup; [apply (NoDup_fst_map_to_list cache)|].
  apply fmap_sublist, sublist_filter.
Qed.

(** Deleting distinct keys that are all present never raises, and removes
    exactly those keys. *)
Lemma delete_each_present ks : forall (cache : gmap string CacheEntry),
  NoDup ks ->
  (forall k, k ∈ ks -> is_Some (cache !! k)) ->
  snd (delete_each ks cache) = false
  /\ forall j, fst (delete_each ks cache) !! j
               = if decide (j ∈ ks) then None else cache !! j.
Proof.
  induction ks as [|k ks IH]; intros cache Hdup Hin.
  - split; [reflexivity|]. intros j. cbn [delete_each fst].
    destruct (decide (j ∈ [])) as [Hj|_]; [inversion Hj | reflexivity].
  - apply NoDup_cons in Hdup as [Hk Hdup].
    cbn [delete_each]. unfold py_del.
    destruct (Hin k ltac:(left)) as [e He]. rewrite He.
    destruct (IH (delete k cache) Hdup) as [Hflag Hlook].
    { intros k' Hk'. rewrite lookup_delete_ne; [apply Hin; now right|].
      intros ->. contradiction. }
    split; [exact Hflag|]. intros j. rewrite Hlook.
    destruct (decide (j ∈ ks)) as [Hj|Hj].
    + destruct (decide (j ∈ k :: ks)) as [_|Hn]; [reflexivity|].
      exfalso. apply Hn. now right.
    + destruct (decide (j = k)) as [->|Hne].
      * rewrite lookup_delete_eq.
        destruct (decide (k ∈ k :: ks)) as [_|Hn]; [reflexivity|].
        exfalso. apply Hn. left.
      * rewrite lookup_delete_ne by congruence.
        destruct (decide (j ∈ k :: ks)) as [Hjk|_]; [|reflexivity].
        apply elem_of_cons in Hjk as [?|?]; contradiction.
Qed.

Lemma sweep_pass_lookup now (cache : gmap string CacheEntry) k :
  fst (sweep_pass now cache) !! k
  = match cache !! k with
    | Some e => if (now <? expires_at e)%Z then Some e else None
    | None => None
    end.
Proof.
  destruct (delete_each_present (expired_keys now cache) cache
              (expired_keys_NoDup now cache)) as [_ Hlook].
  { intros j Hj. apply expired_keys_spec in Hj as (e & -> & _). eauto. }
  unfold sweep_pass. rewrite Hlook.
  destruct (decide (k ∈ expired_keys now cache)) as [Hk|Hk].
  - apply expired_keys_spec in Hk as (e & -> & Hexp).
    now replace (now <? expires_at e)%Z with false
      by (symmetry; apply Z.ltb_ge; exact Hexp).
  - destruct (cache !! k) as [e|] eqn:He; [|reflexivity].
    destruct (Z.ltb_spec now (expires_at e)) as [_|Hexp]; [reflexivity|].
    exfalso. apply Hk, expired_keys_spec. eauto.
Qed.

(** X1 -- One pass of the sweep.  The deletions of a pass never raise (the
    [except] handler is never run by them), and afterwards the cache holds
    exactly the entries whose [expires_at] is still ahead of the clock, each
    unchanged. *)
Theorem sweep_pass_removes_exactly_expired
    (now : Z) (cache : gmap string CacheEntry) :
  snd (sweep_pass now cache) = false
  /\ (forall k,
        fst (sweep_pass now cache) !! k
        = match cache !! k with
          | Some e => if (now <? expires_at e)%Z then Some e else None
          | None => None
          end)
  /\ fst (sweep_pass now cache) ⊆ cache.
Proof.
  split; [|split].
  - apply delete_each_present; [apply expired_keys_NoDup|].
    intros k Hk. apply expired_keys_spec in Hk as (e & -> & _). eauto.
  - apply sweep_pass_lookup.
  - apply map_subseteq_spec. intros k e. rewrite sweep_pass_lookup.
    destruct (cache !! k) as [e'|]; [|discriminate].
    destruct (now <? expires_at e')%Z; [auto | discriminate].
Qed.

Lemma sweep_pass_later earlier later (cache : gmap string CacheEntry) :
  (earlier <= later)%Z ->
  fst (sweep_pass later (fst (sweep_pass earlier cache)))
  = fst (sweep_pass later cache).
Proof.
  intros Hle. apply map_eq. intros k. rewrite !sweep_pass_lookup.
  destruct (cache !! k) as [e|]; [|reflexivity].
  destruct (Z.ltb_spec earlier (expires_at e)) as [_|Hexp]; [reflexivity|].
  now replace (later <? expires_at e)%Z with false
    by (symmetry; apply Z.ltb_ge; lia).
Qed.

(** X2 -- Passes of the sweep compose.  Run back to back on readings of a
    clock none of which exceeds the last one, the iterations of
    [_cleanup_summary_cache_loop] leave the cache one pass at the last
    reading leaves; a second pass at the same reading changes nothing. *)
Theorem cleanup_loop_is_last_pass
    (clocks : list Z) (last : Z) (cache : gmap string CacheEntry) :
  Forall (fun t => (t <= last)%Z) clocks ->
  _cleanup_summary_cache_loop (clocks ++ [last]) cache
  = fst (sweep_pass last cache)
  /\ _cleanup_summary_cache_loop (clocks ++ [last; last]) cache
     = fst (sweep_pass last cache).
Proof.
  intros Hsorted. unfold _cleanup_summary_cache_loop.
  assert (Hone : forall c, foldl (fun c now => fst (sweep_pass now c)) c
                             (clocks ++ [last])
                           = fst (sweep_pass last c)).
  { induction Hsorted as [|t ts Ht _ IH]; intros c; [reflexivity|].
    cbn [app foldl]. rewrite IH. now apply sweep_pass_later. }
  split; [apply Hone|].
  change [last; last] with ([last] ++ [last]).
  rewrite app_assoc, foldl_app, Hone. cbn [foldl].
  now apply sweep_pass_later.
Qed.

Lemma cached_entry_swept swept now (cache : gmap string CacheEntry) cid :
  (swept <= now)%Z ->
  match cached_entry cid (fst (sweep_pass swept cache)) with
  | Some (k, e) =>
      cached_entry cid cache = Some (k, e) /\ (swept < expires_at e)%Z
  | None =>
      match cached_entry cid cache with
      | Some (_, e) => (expires_at e <= now)%Z
      | None => True
      end
  end.
Proof.
  intros Hle. unfold cached_entry. destruct cid as [k|]; [|exact I].
  destruct (Py.truthy k); [|exact I].
  rewrite sweep_pass_lookup.
  destruct (cache !! k) as [e|]; [|exact I].
  destruct (Z.ltb_spec swept (expires_at e)); [auto | lia].
Qed.

(** X3 -- The sweep is not observable in a reply.  Whether or not a pass of
    the sweep has run at some earlier reading of the clock, [chat] hands the
    same history to [process_query], so it makes the same provider calls and
    gives the same response. *)
Theorem sweep_does_not_change_reply
    (P : Provider) (agent : CognizanceAgent) (settings : Settings)
    (req : ChatRequest) (swept now : Z) (cache : gmap string CacheEntry) :
  let swept_cache := fst (sweep_pass swept cache) in
  (swept <= now)%Z ->
  history (window_history req now swept_cache)
  = history (window_history req now cache)
  /\ reply (chat P agent settings req now swept_cache)
     = reply (chat P agent settings req now cache)
  /\ interactions (chat P agent settings req now swept_cache)
     = interactions (chat P agent settings req now cache).
Proof.
  intros swept_cache Hle.
  assert (Hsame : history (window_history req now swept_cache)
                  = history (window_history req now cache)).
  { unfold window_history.
    destruct (chat_history req) as [[|m l]|]; try reflexivity.
    destruct (MAX_TURNS <? length (m :: l))%nat; [|reflexivity].
    pose proof (cached_entry_swept swept now cache (conversation_id req) Hle) as H.
    fold swept_cache in H.
    destruct (cached_entry (conversation_id req) swept_cache) as [[k e]|].
    - destruct H as [-> Hfresh]. now destruct (now <? expires_at e)%Z.
    - destruct (cached_entry (conversation_id req) cache) as [[k e]|];
        [|reflexivity].
      now replace (now <? expires_at e)%Z with false
        by (symmetry; apply Z.ltb_ge; exact H). }
  split; [exact Hsame|].
  unfold chat. rewrite Hsame.
  now destruct (process_query _ _ _ _ _ _ _ _).
Qed.

(** ** [process_query] against an arbitrary provider *)

Lemma all_transient_from_snoc P l : forall done ev,
  all_transient_from P done (l ++ [ev])
  = all_transient_from P done l
    && match ev with
       | Call m c g =>
           match P (done ++ l) m c g with
           | Raise e => is_quota_error e
           | Text _ => false
           end
       | Sleep _ => true
       end.
Proof.
  induction l as [|ev0 l IH]; intros done ev.
  - cbn [app all_transient_from]. rewrite app_nil_r.
    destruct ev; cbn [all_transient_from]; now rewrite ?andb_true_r.
  - cbn [app all_transient_from].
    destruct ev0; rewrite IH, <- app_assoc; cbn [app]; now rewrite ?andb_assoc.
Qed.

Lemma all_transient_snoc_call P l m c g e :
  all_transient P l = true ->
  P l m c g = Raise e ->
  is_quota_error e = true ->
  all_transient P (l ++ [Call m c g]) = true.
Proof.
  intros Hl He Hq. unfold all_transient in *.
  rewrite all_transient_from_snoc, Hl. cbn [app]. now rewrite He, Hq.
Qed.

Lemma all_transient_snoc_sleep P l d :
  all_transient P l = true -> all_transient P (l ++ [Sleep d]) = true.
Proof.
  intros Hl. unfold all_transient in *. now rewrite all_transient_from_snoc, Hl.
Qed.

Lemma last_outcome_from_snoc_call P l m c g : forall done seen,
  last_outcome_from P done (l ++ [Call m c g]) seen = Some (P (done ++ l) m c g).
Proof.
  induction l as [|ev0 l IH]; intros done seen.
  - cbn. now rewrite app_nil_r.
  - cbn [app last_outcome_from].
    destruct ev0; rewrite IH, <- app_assoc; reflexivity.
Qed.

Lemma last_outcome_from_snoc_sleep P l d : forall done seen,
  last_outcome_from P done (l ++ [Sleep d]) seen = last_outcome_from P done l seen.
Proof.
  induction l as [|ev0 l IH]; intros done seen; [reflexivity|].
  cbn [app last_outcome_from]. destruct ev0; apply IH.
Qed.

(** What the loops keep true between two attempts: every call so far failed
    transiently and [last_error] is the error of the last one. *)
Lemma retry_loop_decides P self m c g attempts : forall st,
  all_transient P (log st) = true ->
  last_error st = match last_outcome P (log st) with
                  | Some (Raise e) => Some e
                  | _ => None
                  end ->
  match retry_loop P self m c g attempts st with
  | (Some r, st') => Decided P c g (log st') r
  | (None, st') =>
      all_transient P (log st') = true
      /\ last_error st' = match last_outcome P (log st') with
                          | Some (Raise e) => Some e
                          | _ => None
                          end
  end.
Proof.
  induction attempts as [|a later IH]; intros st Hall Hlast; [now split|].
  cbn [retry_loop].
  destruct (Py.truthy m); cbn [negb]; [|now apply IH].
  destruct (P (log st) m c g) as [answer|e] eqn:Hout.
  - now apply (by_answer P c g _ _ (log st) m answer).
  - destruct (is_quota_error e) eqn:Hq.
    + assert (Hcalled : all_transient P (log st ++ [Call m c g]) = true)
        by now apply (all_transient_snoc_call P _ m c g e).
      destruct (a <? max_retries self - 1)%nat.
      * apply IH; cbn [log last_error].
        -- now apply all_transient_snoc_sleep.
        -- unfold last_outcome.
           rewrite last_outcome_from_snoc_sleep, last_outcome_from_snoc_call.
           cbn [app]. now rewrite Hout.
      * cbn [log last_error]. split; [exact Hcalled|].
        unfold last_outcome. rewrite last_outcome_from_snoc_call.
        cbn [app]. now rewrite Hout.
    + now apply (by_terminal_error P c g _ _ (log st) m e).
Qed.

Lemma model_loop_decides P self c g candidates : forall st,
  all_transient P (log st) = true ->
  last_error st = match last_outcome P (log st) with
                  | Some (Raise e) => Some e
                  | _ => None
                  end ->
  match model_loop P self c g candidates st with
  | (Some r, st') => Decided P c g (log st') r
  | (None, st') =>
      all_transient P (log st') = true
      /\ last_error st' = match last_outcome P (log st') with
                          | Some (Raise e) => Some e
                          | _ => None
                          end
  end.
Proof.
  induction candidates as [|m ms IH]; intros st Hall Hlast; [now split|].
  cbn [model_loop].
  pose proof (retry_loop_decides P self m c g (seq 0 (max_retries self)) st
                Hall Hlast) as Hm.
  destruct (retry_loop P self m c g (seq 0 (max_retries self)) st) as [[r|] st1].
  - exact Hm.
  - destruct Hm as [Hall1 Hlast1]. now apply IH.
Qed.

Lemma process_query_decided P self settings user_input chat_history
    preferred_model temperature max_output_tokens :
  let out := process_query P self settings user_input chat_history
               preferred_model temperature max_output_tokens in
  Decided P (query_contents user_input chat_history)
    (query_config self settings temperature max_output_tokens)
    (snd out) (fst out).
Proof.
  intros out. subst out. unfold process_query.
  set (c := query_contents user_input chat_history).
  set (g := query_config self settings temperature max_output_tokens).
  pose proof (model_loop_decides P self c g (model_candidates self preferred_model)
                {| last_error := None; log := [] |} eq_refl eq_refl) as H.
  destruct (model_loop P self c g (model_candidates self preferred_model) _)
    as [[r|] st]; cbn [fst snd].
  - exact H.
  - destruct H as [Hall Hlast]. apply by_exhaustion; [exact Hall|].
    rewrite Hlast. unfold exhausted_detail.
    now destruct (last_outcome P (log st)) as [[answer|e]|].
Qed.

Lemma all_transient_from_inside P pre : forall done m c g rest,
  all_transient_from P done (pre ++ Call m c g :: rest) = true ->
  exists e, P (done ++ pre) m c g = Raise e /\ is_quota_error e = true.
Proof.
  induction pre as [|ev pre IH]; intros done m c g rest H.
  - cbn [app all_transient_from] in H. rewrite app_nil_r.
    apply andb_true_iff in H as [H _].
    destruct (P done m c g) as [answer|e]; [discriminate|]. eauto.
  - cbn [app all_transient_from] in H.
    replace (done ++ ev :: pre) with ((done ++ [ev]) ++ pre)
      by now rewrite <- app_assoc.
    destruct ev as [m' c' g'|d].
    + apply andb_true_iff in H as [_ H]. now apply IH in H.
    + now apply IH in H.
Qed.

(** In a log ending with a call, a call met somewhere is that last call or
    lies in the part before it. *)
Lemma call_in_log_ending_with_call (body pre rest : list Event) (x y : Event) :
  body ++ [x] = pre ++ y :: rest ->
  (rest = [] /\ pre = body /\ y = x)
  \/ exists rest', body = pre ++ y :: rest'.
Proof.
  intros H. destruct (exists_last (l := y :: rest) ltac:(discriminate))
    as (front & z & Hfront).
  destruct front as [|y' front'].
  - left. cbn in Hfront. injection Hfront as -> ->.
    change (pre ++ [z]) with (pre ++ [z]) in H.
    apply app_inj_tail in H as [-> ->]. auto.
  - right. cbn in Hfront. injection Hfront as <- ->.
    change (pre ++ y :: front' ++ [z]) with (pre ++ (y :: front') ++ [z]) in H.
    rewrite app_assoc in H. apply app_inj_tail in H as [-> _]. eauto.
Qed.

(** C5 (as amended) -- Every terminal failure.  Whatever the provider does
    and whichever attempt on whichever candidate it happens on: if a call
    [process_query] made was answered with an exception outside the capacity
    classes, that call is the last interaction and the result is the
    failure with [success = false], the diagnostic detail [str(e)] in its
    [error] field, and a [response] that is the fixed plain-language apology
    followed by ["Error: "] and that same detail: the detail is attached
    separately and is also embedded in the user-facing text. *)
Theorem terminal_failure_reports_detail_twice
    (P : Provider) (self : CognizanceAgent) (settings : Settings)
    (user_input : string) (chat_history : option (list Message))
    (preferred_model : option string) (temperature : option Q)
    (max_output_tokens : option Z)
    (before : list Event) (m : string) (after : list Event) (e : Exc) :
  let contents := query_contents user_input chat_history in
  let config := query_config self settings temperature max_output_tokens in
  let out := process_query P self settings user_input chat_history
               preferred_model temperature max_output_tokens in
  snd out = before ++ Call m contents config :: after ->
  P before m contents config = Raise e ->
  is_quota_error e = false ->
  after = []
  /\ success (fst out) = false
  /\ error (fst out) = Some (exc_str e)
  /\ response (fst out) = terminal_apology +:+ exc_str e
  /\ embedded (exc_str e) (response (fst out)).
Proof.
  intros contents config out Hlog He Hq.
  pose proof (process_query_decided P self settings user_input chat_history
                preferred_model temperature max_output_tokens) as Hd.
  cbv zeta in Hd. fold contents config out in Hd.
  assert (Hnot : forall l rest,
            all_transient P l = true ->
            l <> before ++ Call m contents config :: rest).
  { intros l rest Hall ->.
    apply all_transient_from_inside in Hall as (e' & He' & Hq').
    cbn [app] in He'. congruence. }
  destruct Hd as [body m' answer Hmade Hall Hans _
                 | body m' e' Hmade Hall He' _ Hr
                 | Hall _].
  - rewrite Hmade in Hlog.
    apply call_in_log_ending_with_call in Hlog
      as [(_ & <- & H)|(rest' & Hbody)].
    + injection H as <-. congruence.
    + now apply Hnot in Hbody.
  - rewrite Hmade in Hlog.
    apply call_in_log_ending_with_call in Hlog
      as [(-> & <- & H)|(rest' & Hbody)].
    + injection H as <-. assert (e' = e) as -> by congruence.
      rewrite Hr. cbn [success error response].
      repeat split. apply terminal_detail_embedded.
    + now apply Hnot in Hbody.
  - now apply Hnot in Hlog.
Qed.

Lemma terminal_failure_reports_detail_twice_witness :
  let out := process_query Cases.strained Scenario.agent Scenario.settings
               "When is the festival?" None None None None in
  let c := query_contents "When is the festival?" None in
  let g := generation_config Scenario.agent in
  snd out = [Call Scenario.primary c g; Sleep 1; Call Scenario.primary c g]
  /\ error (fst out) = Some "500 INTERNAL"
  /\ response (fst out) = terminal_apology +:+ "500 INTERNAL".
Proof.
  intros out c g.
  destruct (terminal_failure_reports_detail_twice Cases.strained Scenario.agent
              Scenario.settings "When is the festival?" None None None None
              [Call Scenario.primary c g; Sleep 1] Scenario.primary []
              {| exc_class := OtherException; exc_str := "500 INTERNAL" |})
    as (_ & _ & Herror & Hresponse & _).
  - reflexivity.
  - reflexivity.
  - reflexivity.
  - split; [reflexivity|]. split; [exact Herror | exact Hresponse].
Defined.

(** X4 -- The last call decides.  Whatever the provider does, the result of
    [process_query] is read off its last call: a text there is returned as
    success with the model called, an exception outside the capacity classes
    there is returned as the failure carrying its text, and otherwise the
    quota-exhaustion failure is returned with the text of the last error (or
    a fixed text if no call was made).  In all three cases every call made
    before the deciding one was answered with a transient error. *)
Theorem process_query_decided_by_last_call
    (P : Provider) (self : CognizanceAgent) (settings : Settings)
    (user_input : string) (chat_history : option (list Message))
    (preferred_model : option string) (temperature : option Q)
    (max_output_tokens : option Z) :
  let out := process_query P self settings user_input chat_history
               preferred_model temperature max_output_tokens in
  Decided P (query_contents user_input chat_history)
    (query_config self settings temperature max_output_tokens)
    (snd out) (fst out).
Proof. apply process_query_decided. Qed.

Lemma count_calls_app (l1 l2 : list Event) :
  count_calls (l1 ++ l2) = count_calls l1 + count_calls l2.
Proof. unfold count_calls. now rewrite List.filter_app, length_app. Qed.

Lemma early_attempts_bound k n : forall a,
  length (List.filter (fun i => (i <? k)%nat) (seq a n)) <= k - a.
Proof.
  induction n as [|n IH]; intros a; [cbn; lia|].
  cbn [seq List.filter]. specialize (IH (S a)).
  destruct (Nat.ltb_spec a k); cbn [length]; lia.
Qed.

(** What one retry loop adds to the log: calls to its own model with the
    query's payload, one per attempt at most, and backoff sleeps of the
    attempts before the last. *)
Lemma retry_loop_extends P self m c g attempts : forall st,
  exists ext,
    log (snd (retry_loop P self m c g attempts st)) = log st ++ ext
    /\ Forall (fun ev =>
                 (ev = Call m c g /\ m <> "")
                 \/ exists i, In i attempts /\ i < max_retries self - 1
                              /\ ev = Sleep (base_retry_delay self * 2 ^ Z.of_nat i))
         ext
    /\ count_calls ext <= length attempts
    /\ length (sleeps ext)
       <= length (List.filter (fun i => (i <? max_retries self - 1)%nat) attempts).
Proof.
  induction attempts as [|a later IH]; intros st.
  - exists []. cbn. rewrite app_nil_r. repeat split; auto.
  - assert (Hweaken : forall ext,
      Forall (fun ev =>
                (ev = Call m c g /\ m <> "")
                \/ exists i, In i later /\ i < max_retries self - 1
                             /\ ev = Sleep (base_retry_delay self * 2 ^ Z.of_nat i))
        ext ->
      Forall (fun ev =>
                (ev = Call m c g /\ m <> "")
                \/ exists i, In i (a :: later) /\ i < max_retries self - 1
                             /\ ev = Sleep (base_retry_delay self * 2 ^ Z.of_nat i))
        ext).
    { intros ext. apply List.Forall_impl.
      intros ev [H|(i & Hi & Hlt & ->)]; [now left|].
      right. exists i. repeat split; auto. now right. }
    cbn [retry_loop List.filter length].
    destruct (Py.truthy m) eqn:Hm; cbn [negb].
    + apply truthy_named in Hm.
      assert (Hcall : (Call m c g = Call m c g /\ m <> "")
                      \/ exists i, In i (a :: later) /\ i < max_retries self - 1
                           /\ Call m c g
                              = Sleep (base_retry_delay self * 2 ^ Z.of_nat i))
        by (left; auto).
      destruct (P (log st) m c g) as [answer|e].
      { exists [Call m c g]. cbn [snd log]. repeat split.
        - now constructor.
        - cbn. lia.
        - cbn. lia. }
      destruct (is_quota_error e).
      2:{ exists [Call m c g]. cbn [snd log]. repeat split.
          - now constructor.
          - cbn. lia.
          - cbn. lia. }
      destruct (Nat.ltb_spec a (max_retries self - 1)) as [Hlt|Hge].
      * destruct (IH {| last_error := Some e;
                        log := (log st ++ [Call m c g])
                               ++ [Sleep (base_retry_delay self * 2 ^ Z.of_nat a)] |})
          as (ext & Hlog & Hall & Hcalls & Hsleeps).
        exists (Call m c g
                  :: Sleep (base_retry_delay self * 2 ^ Z.of_nat a) :: ext).
        rewrite Hlog. cbn [log]. repeat split.
        -- rewrite <- !app_assoc. reflexivity.
        -- constructor; [exact Hcall|]. constructor; [|now apply Hweaken].
           right. exists a. repeat split; auto. now left.
        -- change (Call m c g :: Sleep (base_retry_delay self * 2 ^ Z.of_nat a) :: ext)
             with ([Call m c g; Sleep (base_retry_delay self * 2 ^ Z.of_nat a)] ++ ext).
           rewrite count_calls_app. cbn. lia.
        -- unfold sleeps in *. cbn [flat_map app length] in *. lia.
      * exists [Call m c g]. cbn [snd log]. repeat split.
        -- now constructor.
        -- cbn. lia.
        -- cbn. lia.
    + destruct (IH st) as (ext & Hlog & Hall & Hcalls & Hsleeps).
      exists ext. repeat split; auto.
      destruct (a <? max_retries self - 1)%nat; cbn [length]; lia.
Qed.

(** What the loop over the candidates adds to the log. *)
Lemma model_loop_extends P self c g candidates : forall st,
  exists ext,
    log (snd (model_loop P self c g candidates st)) = log st ++ ext
    /\ Forall (fun ev =>
                 (exists m, In m candidates /\ m <> "" /\ ev = Call m c g)
                 \/ exists i, i < max_retries self - 1
                              /\ ev = Sleep (base_retry_delay self * 2 ^ Z.of_nat i))
         ext
    /\ count_calls ext <= max_retries self * length candidates
    /\ length (sleeps ext) <= (max_retries self - 1) * length candidates.
Proof.
  induction candidates as [|m ms IH]; intros st.
  - exists []. cbn. rewrite app_nil_r. repeat split; auto; lia.
  - cbn [model_loop].
    destruct (retry_loop_extends P self m c g (seq 0 (max_retries self)) st)
      as (ext1 & Hlog1 & Hall1 & Hcalls1 & Hsleeps1).
    rewrite length_seq in Hcalls1.
    pose proof (early_attempts_bound (max_retries self - 1) (max_retries self) 0)
      as Hearly.
    assert (Hall1' : Forall (fun ev =>
                 (exists m', In m' (m :: ms) /\ m' <> "" /\ ev = Call m' c g)
                 \/ exists i, i < max_retries self - 1
                              /\ ev = Sleep (base_retry_delay self * 2 ^ Z.of_nat i))
              ext1).
    { revert Hall1. apply List.Forall_impl.
      intros ev [[-> Hm]|(i & _ & Hlt & ->)].
      - left. exists m. repeat split; auto. now left.
      - right. eauto. }
    destruct (retry_loop P self m c g (seq 0 (max_retries self)) st)
      as [[r|] st1]; cbn [snd] in *.
    + exists ext1. repeat split; auto; cbn [length]; lia.
    + destruct (IH st1) as (ext2 & Hlog2 & Hall2 & Hcalls2 & Hsleeps2).
      exists (ext1 ++ ext2). rewrite Hlog2, Hlog1. repeat split.
      * now rewrite app_assoc.
      * apply Forall_app. split; [exact Hall1'|].
        revert Hall2. apply List.Forall_impl.
        intros ev [(m' & Hin & Hm' & ->)|H]; [|now right].
        left. exists m'. repeat split; auto. now right.
      * rewrite count_calls_app. cbn [length]. lia.
      * rewrite sleeps_app, length_app. cbn [length]. lia.
Qed.

Lemma process_query_extends P self settings user_input chat_history
    preferred_model temperature max_output_tokens :
  let c := query_contents user_input chat_history in
  let g := query_config self settings temperature max_output_tokens in
  let candidates := model_candidates self preferred_model in
  let made := snd (process_query P self settings user_input chat_history
                     preferred_model temperature max_output_tokens) in
  Forall (fun ev =>
            (exists m, In m candidates /\ m <> "" /\ ev = Call m c g)
            \/ exists i, i < max_retries self - 1
                         /\ ev = Sleep (base_retry_delay self * 2 ^ Z.of_nat i))
    made
  /\ count_calls made <= max_retries self * length candidates
  /\ length (sleeps made) <= (max_retries self - 1) * length candidates.
Proof.
  intros c g candidates made. subst made. unfold process_query.
  fold c g candidates.
  destruct (model_loop_extends P self c g candidates
              {| last_error := None; log := [] |}) as (ext & Hlog & H).
  cbn [log app] in Hlog.
  destruct (model_loop P self c g candidates _) as [[r|] st];
    cbn [snd] in *; now rewrite Hlog.
Qed.

Lemma Forall_sleeps (Q : Event -> Prop) (R : Z -> Prop) (made : list Event) :
  (forall d, Q (Sleep d) -> R d) -> Forall Q made -> Forall R (sleeps made).
Proof.
  intros HQR Hall. induction Hall as [|ev l Hev _ IH]; [constructor|].
  destruct ev as [m c g|d]; [exact IH|].
  change (sleeps (Sleep d :: l)) with (d :: sleeps l). constructor; auto.
Qed.

Lemma calls_to_le_count_calls x (l : list Event) : calls_to x l <= count_calls l.
Proof.
  unfold calls_to, count_calls.
  induction l as [|ev l IH]; [reflexivity|]. cbn [List.filter].
  destruct ev as [m c g|d]; cbn [is_call_to is_call]; [|exact IH].
  destruct (String.eqb x m); cbn [length]; lia.
Qed.

Lemma attempts_of_calls_to self c g m segment x :
  attempts_of self c g m segment ->
  calls_to x segment <= if String.eqb x m then max_retries self else 0.
Proof.
  intros (Hall & Hcalls & _).
  destruct (String.eqb_spec x m) as [->|Hne].
  - pose proof (calls_to_le_count_calls m segment). lia.
  - clear Hcalls. induction Hall as [|ev l Hev _ IH]; [reflexivity|].
    rewrite calls_to_cons.
    destruct Hev as [->|(i & _ & ->)].
    + rewrite calls_to_call_other by assumption. exact IH.
    + rewrite calls_to_sleep. exact IH.
Qed.

(** The log of the loop over the candidates, cut by candidate. *)
Lemma model_loop_segments P self c g candidates : forall st,
  exists tried untried segments,
    candidates = tried ++ untried
    /\ Forall2 (attempts_of self c g) tried segments
    /\ log (snd (model_loop P self c g candidates st))
       = log st ++ concat segments.
Proof.
  induction candidates as [|m ms IH]; intros st.
  - exists [], [], []. cbn. rewrite app_nil_r. repeat split. constructor.
  - cbn [model_loop].
    destruct (retry_loop_extends P self m c g (seq 0 (max_retries self)) st)
      as (ext1 & Hlog1 & Hall1 & Hcalls1 & Hsleeps1).
    rewrite length_seq in Hcalls1.
    pose proof (early_attempts_bound (max_retries self - 1) (max_retries self) 0)
      as Hearly.
    assert (Hseg : attempts_of self c g m ext1).
    { split; [|split; lia].
      revert Hall1. apply List.Forall_impl.
      intros ev [[-> _]|(i & _ & Hlt & ->)]; [now left | right; eauto]. }
    destruct (retry_loop P self m c g (seq 0 (max_retries self)) st)
      as [[r|] st1]; cbn [snd] in *.
    + exists [m], ms, [ext1]. cbn [concat app]. rewrite app_nil_r.
      repeat split; auto.
    + destruct (IH st1) as (tried & untried & segments & -> & Hsegs & Hlog).
      exists (m :: tried), untried, (ext1 :: segments).
      rewrite Hlog, Hlog1. cbn [concat]. rewrite <- app_assoc.
      repeat split. now constructor.
Qed.

(** X5 -- The retry budget bounds every query, candidate by candidate.
    Whatever the provider does, the interactions of [process_query] are, in
    list order, one segment per candidate tried (a prefix of the candidate
    list), each holding calls to that candidate only, at most [max_retries]
    of them, and at most [max_retries - 1] backoff sleeps; so a model is
    called at most [max_retries] times per occurrence in the list, and every
    sleep lasts [base_retry_delay * 2^i] for an attempt index [i] below
    [max_retries - 1].  With the agent [__init__] builds that is at most 3
    calls and 2 sleeps, of 1 and 2 seconds, per candidate. *)
Theorem process_query_within_budget
    (P : Provider) (self : CognizanceAgent) (settings : Settings)
    (user_input : string) (chat_history : option (list Message))
    (preferred_model : option string) (temperature : option Q)
    (max_output_tokens : option Z) :
  let c := query_contents user_input chat_history in
  let g := query_config self settings temperature max_output_tokens in
  let candidates := model_candidates self preferred_model in
  let made := snd (process_query P self settings user_input chat_history
                     preferred_model temperature max_output_tokens) in
  (exists tried untried segments,
     candidates = tried ++ untried
     /\ Forall2 (attempts_of self c g) tried segments
     /\ made = concat segments)
  /\ (forall m,
        calls_to m made
        <= max_retries self * count_occ String.string_dec candidates m)
  /\ count_calls made <= max_retries self * length candidates
  /\ length (sleeps made) <= (max_retries self - 1) * length candidates
  /\ Forall (fun d => exists i, i < max_retries self - 1
                       /\ d = (base_retry_delay self * 2 ^ Z.of_nat i)%Z)
       (sleeps made).
Proof.
  intros c g candidates made.
  assert (Hcut : exists tried untried segments,
            candidates = tried ++ untried
            /\ Forall2 (attempts_of self c g) tried segments
            /\ made = concat segments).
  { subst made. unfold process_query. fold c g candidates.
    destruct (model_loop_segments P self c g candidates
                {| last_error := None; log := [] |})
      as (tried & untried & segments & Hc & Hsegs & Hlog).
    cbn [log app] in Hlog. exists tried, untried, segments.
    repeat split; auto.
    destruct (model_loop P self c g candidates _) as [[r|] st];
      cbn [snd] in *; exact Hlog. }
  split; [exact Hcut|]. split.
  { intros m. destruct Hcut as (tried & untried & segments & -> & Hsegs & ->).
    rewrite count_occ_app.
    enough (calls_to m (concat segments)
            <= max_retries self * count_occ String.string_dec tried m) by lia.
    induction Hsegs as [|m' seg tried' segs' Hseg _ IH]; [cbn; lia|].
    cbn [concat count_occ]. rewrite calls_to_app.
    pose proof (attempts_of_calls_to self c g m' seg m Hseg) as Hm.
    destruct (String.string_dec m' m) as [->|Hne].
    - rewrite String.eqb_refl in Hm. lia.
    - destruct (String.eqb_spec m m') as [->|_]; [congruence | lia]. }
  destruct (process_query_extends P self settings user_input chat_history
              preferred_model temperature max_output_tokens)
    as (Hall & Hcalls & Hsleeps).
  repeat split; [exact Hcalls | exact Hsleeps |].
  revert Hall. apply Forall_sleeps.
  intros d [(m & _ & _ & H)|(i & Hi & H)]; [discriminate|].
  injection H as ->. eauto.
Qed.

(** X6 -- Only the candidates are called, with one payload.  Whatever the
    provider does, every call [process_query] makes is to a candidate of its
    list with a non-empty name, and carries the same contents (the converted
    history followed by the user message) and the same generation config. *)
Theorem process_query_calls_only_candidates
    (P : Provider) (self : CognizanceAgent) (settings : Settings)
    (user_input : string) (chat_history : option (list Message))
    (preferred_model : option string) (temperature : option Q)
    (max_output_tokens : option Z) :
  let made := snd (process_query P self settings user_input chat_history
                     preferred_model temperature max_output_tokens) in
  forall m c g, In (Call m c g) made ->
    In m (model_candidates self preferred_model)
    /\ m <> ""
    /\ c = query_contents user_input chat_history
    /\ g = query_config self settings temperature max_output_tokens.
Proof.
  intros made m c g Hin.
  destruct (process_query_extends P self settings user_input chat_history
              preferred_model temperature max_output_tokens) as (Hall & _).
  rewrite List.Forall_forall in Hall.
  destruct (Hall _ Hin) as [(m' & Hm' & Hnamed & H)|(i & _ & H)]; [|discriminate].
  injection H as -> -> ->. auto.
Qed.

Lemma failure_messages_not_empty detail :
  terminal_error_message detail <> "" /\ quota_error_message <> "".
Proof. split; vm_compute; discriminate. Qed.

(** X7 -- The shape of every result.  Whatever the provider does, a result
    of [process_query] is either a success, with no [error], whose
    [model_used] is a named candidate and the target of the last call made,
    or a failure, with no [model_used], an [error] text and a non-empty
    [response] for the user; the response of [chat] copies the flag, the
    text and the error, so it has an [error] exactly when it is not a
    success. *)
Theorem process_query_result_shape
    (P : Provider) (self : CognizanceAgent) (settings : Settings)
    (user_input : string) (chat_history : option (list Message))
    (preferred_model : option string) (temperature : option Q)
    (max_output_tokens : option Z) :
  let out := process_query P self settings user_input chat_history
               preferred_model temperature max_output_tokens in
  let c := query_contents user_input chat_history in
  let g := query_config self settings temperature max_output_tokens in
  ((success (fst out) = true /\ error (fst out) = None
    /\ exists m, model_used (fst out) = Some m
                 /\ In m (model_candidates self preferred_model) /\ m <> ""
                 /\ last (snd out) = Some (Call m c g))
   \/ (success (fst out) = false /\ model_used (fst out) = None
       /\ (exists detail, error (fst out) = Some detail)
       /\ response (fst out) <> ""))
  /\ forall (req : ChatRequest) (now : Z) (cache : gmap string CacheEntry),
       let answer := reply (chat P self settings req now cache) in
       (resp_success answer = true <-> resp_error answer = None)
       /\ (resp_success answer = false -> resp_response answer <> "").
Proof.
  intros out c g.
  assert (Hshape : forall user_input chat_history preferred_model temperature
                     max_output_tokens,
    let out := process_query P self settings user_input chat_history
                 preferred_model temperature max_output_tokens in
    let c := query_contents user_input chat_history in
    let g := query_config self settings temperature max_output_tokens in
    (success (fst out) = true /\ error (fst out) = None
     /\ exists m, model_used (fst out) = Some m
                  /\ In m (model_candidates self preferred_model) /\ m <> ""
                  /\ last (snd out) = Some (Call m c g))
    \/ (success (fst out) = false /\ model_used (fst out) = None
        /\ (exists detail, error (fst out) = Some detail)
        /\ response (fst out) <> "")).
  { clear. intros user_input chat_history preferred_model temperature
      max_output_tokens out c g.
    pose proof (process_query_decided P self settings user_input chat_history
                  preferred_model temperature max_output_tokens) as Hd.
    destruct (process_query_extends P self settings user_input chat_history
                preferred_model temperature max_output_tokens) as (Hall & _).
    cbv zeta in Hd, Hall. fold out c g in Hd, Hall.
    destruct Hd as [body m answer Hmade _ _ Hr | body m e Hmade _ _ _ Hr | _ Hr];
      rewrite Hr; cbn [success error model_used response].
    - left. repeat split. exists m.
      rewrite List.Forall_forall in Hall.
      destruct (Hall (Call m c g)) as [(m' & Hm' & Hnamed & H)|(i & _ & H)];
        [rewrite Hmade; apply in_or_app; right; now left | | discriminate].
      injection H as ->. repeat split; auto.
      rewrite Hmade. apply last_snoc.
    - right. repeat split; eauto; apply failure_messages_not_empty.
    - right. repeat split; eauto; apply (failure_messages_not_empty ""). }
  split; [apply Hshape|].
  intros req now cache answer. subst answer. unfold chat.
  specialize (Hshape (message req) (history (window_history req now cache))
                None None None).
  cbv zeta in Hshape.
  destruct (process_query P self settings (message req) _ None None None)
    as [r made]; cbn [fst snd reply resp_success resp_error resp_response] in *.
  destruct Hshape as [(Hs & He & _)|(Hs & _ & (d & He) & Hr)];
    rewrite Hs, He; split; try congruence; auto; split; congruence.
Qed.

Lemma model_loop_unnamed P self c g candidates : forall st,
  Forall (fun m => m = "") candidates ->
  model_loop P self c g candidates st = (None, st).
Proof.
  induction candidates as [|m ms IH]; intros st Hall; [reflexivity|].
  apply Forall_cons_1 in Hall as [-> Hms].
  cbn [model_loop]. rewrite retry_loop_unnamed. now apply IH.
Qed.

(** X8 -- No named candidate.  When every name in the candidate list is
    empty (an empty [GOOGLE_MODEL] with no fallback), [process_query] makes
    no provider call and no sleep, and returns the quota-exhaustion failure
    with the fixed error text [Quota exceeded on all models]. *)
Theorem process_query_without_named_candidate
    (P : Provider) (self : CognizanceAgent) (settings : Settings)
    (user_input : string) (chat_history : option (list Message))
    (preferred_model : option string) (temperature : option Q)
    (max_output_tokens : option Z) :
  Forall (fun m => m = "") (model_candidates self preferred_model) ->
  process_query P self settings user_input chat_history preferred_model
    temperature max_output_tokens
  = ({| success := false; response := quota_error_message; model_used := None;
        error := Some "Quota exceeded on all models" |}, []).
Proof.
  intros Hall. unfold process_query.
  now rewrite (model_loop_unnamed P self _ _ _ _ Hall).
Qed.

(** X9 -- A summarization that yields no text leaves the cache alone.  If
    the provider never answers with a non-empty text (it raises, or its
    text is empty), the job ends with the cache exactly as it found it,
    whatever identifier the job carries. *)
Theorem summarization_without_text_leaves_cache
    (P : Provider) (agent : CognizanceAgent) (settings : Settings)
    (job : SummarizationJob) (now : Z) (cache : gmap string CacheEntry) :
  (forall t m c g answer, P t m c g = Text answer -> answer = "") ->
  fst (_do P agent settings job now cache) = cache.
Proof.
  intros Hmute. rewrite do_cache.
  pose proof (process_query_decided P agent settings summary_prompt
                (Some (older_turns job)) (Some (cheaper_model settings))
                (Some (Qmake 2 10)) (Some 200%Z)) as Hd.
  cbv zeta in Hd.
  destruct Hd as [body m answer _ _ Hans Hr | body m e _ _ _ _ Hr | _ Hr];
    rewrite Hr; unfold store_summary; cbn [success response andb]; auto.
  apply Hmute in Hans as ->. reflexivity.
Qed.

(** X10 -- A job writes under its own identifier only.  Whatever the
    summarization query returns, the job leaves the entry of every other
    identifier as it was and removes none: an identifier with an entry
    before the job has one after it. *)
Theorem summarization_touches_own_entry_only
    (P : Provider) (agent : CognizanceAgent) (settings : Settings)
    (job : SummarizationJob) (now : Z) (cache : gmap string CacheEntry) :
  let cache' := fst (_do P agent settings job now cache) in
  (forall k, conv_id job <> Some k -> cache' !! k = cache !! k)
  /\ (forall k, is_Some (cache !! k) -> is_Some (cache' !! k)).
Proof.
  intros cache'. subst cache'. rewrite do_cache. unfold store_summary.
  destruct (success _ && Py.truthy _); [|now split].
  destruct (conv_id job) as [cid|]; [|now split].
  destruct (Py.truthy cid); [|now split].
  split.
  - intros k Hk. apply lookup_insert_ne. congruence.
  - intros k Hk. apply lookup_insert_is_Some'. now right.
Qed.

(** X11 -- The job stays on the cheaper model.  With a named cheaper model,
    every provider call of a summarization job is to that model, with the
    older turns followed by the summary prompt, temperature 0.2 and a
    ceiling of 200 output tokens; the job makes at most [max_retries] calls
    (3 for the agent [__init__] builds) and never fails over. *)
Theorem summarization_calls_cheaper_model_only
    (P : Provider) (agent : CognizanceAgent) (settings : Settings)
    (running_loop : bool) (job : SummarizationJob) (now : Z)
    (cache : gmap string CacheEntry) :
  let made := interactions_of_job P agent settings running_loop job now cache in
  cheaper_model settings <> "" ->
  (forall m c g, In (Call m c g) made ->
     m = cheaper_model settings
     /\ c = query_contents summary_prompt (Some (older_turns job))
     /\ g = {| system_instruction := system_prompt agent;
               temperature := Qmake 2 10;
               max_output_tokens := 200 |})
  /\ count_calls made <= max_retries agent.
Proof.
  intros made Hcheap. subst made.
  unfold interactions_of_job, _schedule_summarization.
  destruct running_loop; [|split; [intros m c g [] | cbn; lia]].
  rewrite do_interactions.
  destruct (process_query_extends P agent settings summary_prompt
              (Some (older_turns job)) (Some (cheaper_model settings))
              (Some (Qmake 2 10)) (Some 200%Z)) as (Hall & Hcalls & _).
  assert (Hcand : model_candidates agent (Some (cheaper_model settings))
                  = [cheaper_model settings]).
  { unfold model_candidates. apply truthy_named in Hcheap. now rewrite Hcheap. }
  rewrite Hcand in Hall, Hcalls. cbn [length] in Hcalls.
  split; [|lia].
  intros m c g Hin. rewrite List.Forall_forall in Hall.
  destruct (Hall _ Hin) as [(m' & Hm' & _ & H)|(i & _ & H)]; [|discriminate].
  injection H as -> -> ->.
  destruct Hm' as [<-|[]]. auto.
Qed.

(** ** More on the windowing of [chat] *)

Lemma cached_entry_inv cid (cache : gmap string CacheEntry) k e :
  cached_entry cid cache = Some (k, e) ->
  cid = Some k /\ k <> "" /\ cache !! k = Some e.
Proof.
  unfold cached_entry. destruct cid as [k'|]; [|discriminate].
  destruct (Py.truthy k') eqn:Hk; [|discriminate].
  destruct (cache !! k') as [e'|] eqn:He; [|discriminate].
  intros [= <- <-]. apply truthy_named in Hk. auto.
Qed.

Lemma build_history_length h :
  length (_build_history h) = length (default [] h).
Proof. destruct h as [l|]; [apply length_map | reflexivity]. Qed.

(** X12 -- What [chat] sends is bounded.  For every request, cache and
    clock, the history handed to [process_query] has at most 15 turns, so
    every provider call of [chat] carries at most 16 contents, the last of
    them the user message; and at most one background task is added. *)
Theorem chat_sends_bounded_history
    (P : Provider) (agent : CognizanceAgent) (settings : Settings)
    (req : ChatRequest) (now : Z) (cache : gmap string CacheEntry) :
  let w := window_history req now cache in
  length (default [] (history w)) <= MAX_TURNS
  /\ length (background_tasks w) <= 1
  /\ forall m c g,
       In (Call m c g) (interactions (chat P agent settings req now cache)) ->
       length c <= MAX_TURNS + 1
       /\ last c = Some {| content_role := "user"; parts := [message req] |}.
Proof.
  intros w.
  assert (Hlen : length (default [] (history w)) <= MAX_TURNS
                 /\ length (background_tasks w) <= 1).
  { subst w. unfold window_history.
    destruct (chat_history req) as [[|m l]|]; [cbn; lia | | cbn; lia].
    destruct (Nat.ltb_spec MAX_TURNS (length (m :: l))) as [Hlong|Hshort].
    - assert (H8 : length (drop (length (m :: l) - KEEP_LAST) (m :: l)) = 8).
      { rewrite length_drop. unfold MAX_TURNS, KEEP_LAST in *. lia. }
      set (recent := drop (length (m :: l) - KEEP_LAST) (m :: l)) in *.
      destruct (cached_entry (conversation_id req) cache) as [[k e]|].
      + destruct (now <? expires_at e)%Z;
          cbn [history background_tasks default from_option id length];
          rewrite H8; unfold MAX_TURNS; lia.
      + cbn [history background_tasks default from_option id length]. rewrite H8.
        unfold MAX_TURNS. lia.
    - cbn [history background_tasks default from_option id length] in *. lia. }
  destruct Hlen as [Hturns Htasks]. split; [exact Hturns|]. split; [exact Htasks|].
  intros m c g Hin. rewrite chat_interactions in Hin.
  destruct (process_query_extends P agent settings (message req) (history w)
              None None None) as (Hall & _).
  rewrite List.Forall_forall in Hall.
  destruct (Hall _ Hin) as [(m' & _ & _ & H)|(i & _ & H)]; [|discriminate].
  injection H as -> -> ->. unfold query_contents. split.
  - rewrite length_app, build_history_length. cbn [length]. lia.
  - apply last_snoc.
Qed.

(** X13 -- [chat] never writes the cache.  The cache [chat] leaves is
    contained in the one it found and agrees with it on every identifier
    other than the request's own; it differs only when the request's own
    entry had expired, which is then deleted. *)
Theorem chat_only_drops_own_expired_entry
    (req : ChatRequest) (now : Z) (cache : gmap string CacheEntry) :
  let w := window_history req now cache in
  cache_after w ⊆ cache
  /\ (forall k, conversation_id req <> Some k -> cache_after w !! k = cache !! k)
  /\ (cache_after w = cache
      \/ exists cid e,
           conversation_id req = Some cid /\ cache !! cid = Some e
           /\ (expires_at e <= now)%Z /\ cache_after w = delete cid cache).
Proof.
  intros w.
  assert (Hcases : cache_after w = cache
      \/ exists cid e,
           conversation_id req = Some cid /\ cache !! cid = Some e
           /\ (expires_at e <= now)%Z /\ cache_after w = delete cid cache).
  { subst w. unfold window_history.
    destruct (chat_history req) as [[|m l]|]; try (now left).
    destruct (MAX_TURNS <? length (m :: l))%nat; [|now left].
    destruct (cached_entry (conversation_id req) cache) as [[k e]|] eqn:Hc;
      [|now left].
    apply cached_entry_inv in Hc as (Hid & _ & He).
    destruct (Z.ltb_spec now (expires_at e)); [now left|].
    right. exists k, e. auto. }
  split; [|split; [|exact Hcases]].
  - destruct Hcases as [->|(cid & e & _ & _ & _ & ->)];
      [reflexivity | apply delete_subseteq].
  - intros k Hk. destruct Hcases as [->|(cid & e & Hid & _ & _ & ->)];
      [reflexivity|].
    apply lookup_delete_ne. congruence.
Qed.

(** X14 -- Lazy expiry agrees with the sweep.  For a request above the
    threshold with a non-empty identifier, [chat] leaves under that
    identifier exactly what a pass of the sweep at the same clock would
    leave there: the entry if it is still fresh, nothing otherwise.  So an
    entry that survives the lookup is never expired. *)
Theorem chat_lookup_expires_like_sweep
    (req : ChatRequest) (now : Z) (cache : gmap string CacheEntry)
    (full_history : list Message) (cid : string) :
  let w := window_history req now cache in
  chat_history req = Some full_history ->
  MAX_TURNS < length full_history ->
  conversation_id req = Some cid ->
  cid <> "" ->
  cache_after w !! cid = fst (sweep_pass now cache) !! cid
  /\ forall e, cache_after w !! cid = Some e -> (now < expires_at e)%Z.
Proof.
  intros w Hh Hlen Hid Hcid.
  assert (Hlook : cache_after w !! cid = fst (sweep_pass now cache) !! cid).
  { subst w. rewrite (window_history_long req now cache full_history Hh Hlen), Hid.
    rewrite sweep_pass_lookup. unfold cached_entry.
    apply truthy_named in Hcid. rewrite Hcid.
    destruct (cache !! cid) as [e|] eqn:He; cbn [cache_after]; [|exact He].
    destruct (now <? expires_at e)%Z; cbn [cache_after];
      [exact He | apply lookup_delete_eq]. }
  split; [exact Hlook|].
  intros e. rewrite Hlook, sweep_pass_lookup.
  destruct (cache !! cid) as [e'|]; [|discriminate].
  destruct (Z.ltb_spec now (expires_at e')); [|discriminate].
  now intros [= <-].
Qed.

(** X15 -- A fresh summary is reused.  While the entry of the request's
    identifier has not expired, [chat] sends one assistant turn with the
    cached summary followed by the last 8 turns, adds no background task
    and leaves the cache as it is; repeating the request at any later
    reading still before the expiry sends the same history again. *)
Theorem fresh_summary_is_reused
    (req : ChatRequest) (now later : Z) (cache : gmap string CacheEntry)
    (full_history : list Message) (cid : string) (entry : CacheEntry) :
  let w := window_history req now cache in
  chat_history req = Some full_history ->
  MAX_TURNS < length full_history ->
  conversation_id req = Some cid ->
  cid <> "" ->
  cache !! cid = Some entry ->
  (now < expires_at entry)%Z ->
  (later < expires_at entry)%Z ->
  w = {| history :=
           Some ({| role := "assistant"; content := summary entry |}
                   :: drop (length full_history - KEEP_LAST) full_history);
         background_tasks := [];
         cache_after := cache |}
  /\ window_history req later (cache_after w) = w.
Proof.
  intros w Hh Hlen Hid Hcid Hin Hnow Hlater.
  assert (Hhit : forall t, (t < expires_at entry)%Z ->
            window_history req t cache
            = {| history :=
                   Some ({| role := "assistant"; content := summary entry |}
                           :: drop (length full_history - KEEP_LAST) full_history);
                 background_tasks := [];
                 cache_after := cache |}).
  { intros t Ht.
    rewrite (window_history_long req t cache full_history Hh Hlen), Hid.
    rewrite (cached_entry_found cid entry cache Hcid Hin).
    now replace (t <? expires_at entry)%Z with true
      by (symmetry; apply Z.ltb_lt; exact Ht). }
  subst w. rewrite (Hhit now Hnow). cbn [cache_after].
  split; [reflexivity | apply (Hhit later Hlater)].
Qed.

(** X16 -- A stored summary lives for 6 hours.  After a job keyed by a
    non-empty identifier stored its summary at time [stored], a request
    above the threshold for that identifier gets the stripped summary as
    its first turn, with no background task, at every reading before
    [stored + 21600]; from [stored + 21600] on it gets the last 8 turns
    alone and the entry is deleted. *)
Theorem stored_summary_served_until_ttl
    (P : Provider) (agent : CognizanceAgent) (settings : Settings)
    (job : SummarizationJob) (cid : string) (stored now : Z)
    (cache : gmap string CacheEntry) (req : ChatRequest)
    (full_history : list Message) :
  let r := fst (process_query P agent settings summary_prompt
                  (Some (older_turns job)) (Some (cheaper_model settings))
                  (Some (Qmake 2 10)) (Some 200%Z)) in
  let cache' := fst (_do P agent settings job stored cache) in
  let recent := drop (length full_history - KEEP_LAST) full_history in
  conv_id job = Some cid ->
  cid <> "" ->
  success r = true ->
  response r <> "" ->
  chat_history req = Some full_history ->
  MAX_TURNS < length full_history ->
  conversation_id req = Some cid ->
  ((now < stored + 21600)%Z ->
     window_history req now cache'
     = {| history :=
            Some ({| role := "assistant"; content := Py.strip (response r) |}
                    :: recent);
          background_tasks := [];
          cache_after := cache' |})
  /\ ((stored + 21600 <= now)%Z ->
        window_history req now cache'
        = {| history := Some recent;
             background_tasks := [];
             cache_after := delete cid cache |}).
Proof.
  intros r cache' recent Hjob Hcid Hs Hr Hh Hlen Hid.
  assert (Hcache : cache'
            = <[cid := {| summary := Py.strip (response r);
                          expires_at := (stored + 21600)%Z |}]> cache).
  { subst cache'. rewrite do_cache, Hjob. fold r.
    now rewrite (store_summary_named cid r stored cache Hcid Hs Hr). }
  assert (Hentry : cache' !! cid
            = Some {| summary := Py.strip (response r);
                      expires_at := (stored + 21600)%Z |})
    by (rewrite Hcache; apply lookup_insert_eq).
  split; intros Hnow;
    rewrite (window_history_long req now cache' full_history Hh Hlen), Hid,
      (cached_entry_found cid _ cache' Hcid Hentry); cbn [expires_at summary].
  - now replace (now <? stored + 21600)%Z with true
      by (symmetry; apply Z.ltb_lt; exact Hnow).
  - replace (now <? stored + 21600)%Z with false
      by (symmetry; apply Z.ltb_ge; exact Hnow).
    fold recent. now rewrite Hcache, delete_insert_eq.
Qed.

(** ** The history adapter and the configured model names *)

Lemma lower_ascii_same_letter c w :
  ((nat_of_ascii w <? 65) || (90 <? nat_of_ascii w))%nat = true ->
  Ascii.eqb (Py.lower_ascii c) w = same_letter c w.
Proof.
  intros Hw. unfold Py.lower_ascii, same_letter.
  pose proof (nat_ascii_bounded c) as Hc.
  destruct ((65 <=? nat_of_ascii c) && (nat_of_ascii c <=? 90))%nat eqn:Hcap;
    cbn [andb]; [|now rewrite orb_false_r].
  apply andb_true_iff in Hcap as [Hlo Hhi].
  apply Nat.leb_le in Hlo, Hhi.
  apply orb_true_iff in Hw.
  destruct (Ascii.eqb_spec c w) as [->|_].
  { destruct Hw as [Hw|Hw]; [apply Nat.ltb_lt in Hw | apply Nat.ltb_lt in Hw]; lia. }
  cbn [orb].
  destruct (Nat.eqb_spec (nat_of_ascii c + 32) (nat_of_ascii w)) as [Heq|Hne].
  - rewrite Heq, ascii_nat_embedding. apply Ascii.eqb_refl.
  - destruct (Ascii.eqb_spec (ascii_of_nat (nat_of_ascii c + 32)) w) as [Heq|_];
      [|reflexivity].
    exfalso. apply Hne. rewrite <- Heq. symmetry. apply nat_ascii_embedding. lia.
Qed.

(** Comparing the lowered role with a word without capitals is comparing
    the role with the word without regard to ASCII case. *)
Lemma lower_matches word : forall raw,
  no_capital word = true ->
  String.eqb (Py.lower raw) word = matches_ignoring_case raw word.
Proof.
  induction word as [|w word IH]; intros raw Hword; destruct raw as [|c raw];
    try reflexivity.
  cbn [no_capital] in Hword. apply andb_true_iff in Hword as [Hw Hword].
  cbn [Py.lower matches_ignoring_case String.eqb].
  now rewrite lower_ascii_same_letter, IH.
Qed.

Lemma build_role_expected raw : build_role raw = expected_role raw.
Proof.
  unfold build_role, expected_role.
  rewrite !(lower_matches "user"), !(lower_matches "system") by reflexivity.
  destruct (matches_ignoring_case raw "user"); [reflexivity|].
  destruct (String.eqb_spec (Py.lower raw) "assistant") as [Ha|_];
    [|reflexivity].
  rewrite <- (lower_matches "system") by reflexivity. now rewrite Ha.
Qed.

Lemma matches_length raw : forall word,
  matches_ignoring_case raw word = true -> String.length raw = String.length word.
Proof.
  induction raw as [|c raw IH]; intros [|w word] H; try discriminate;
    [reflexivity|].
  cbn [matches_ignoring_case] in H. apply andb_true_iff in H as [_ H].
  cbn [String.length]. now rewrite (IH word H).
Qed.

(** X17 -- The history adapter folds the case of roles.  [_build_history]
    sends a turn with role [user] or [system] exactly when the turn's role
    is that word in any mix of ASCII capitals and small letters (each
    character the letter itself or its capital), and with role [model] in
    every other case, among them [assistant] however it is written, unknown
    roles and the empty role; the text of the turn is the only part of its
    content, and order and number of the turns are kept. *)
Theorem build_history_folds_role_case (turns : list Message) :
  _build_history (Some turns)
  = map (fun msg => {| content_role := expected_role (role msg);
                       parts := [content msg] |}) turns
  /\ (forall raw,
        (build_role raw = "user" <-> matches_ignoring_case raw "user" = true)
        /\ (build_role raw = "system" <-> matches_ignoring_case raw "system" = true)
        /\ (build_role raw = "model"
            <-> matches_ignoring_case raw "user" = false
                /\ matches_ignoring_case raw "system" = false))
  /\ map build_role ["USER"; "User"; "sYsTeM"; "ASSISTANT"; "tool"; ""; "user "]
     = ["user"; "user"; "system"; "model"; "model"; "model"; "model"].
Proof.
  split; [|split; [|reflexivity]].
  - cbn [_build_history]. apply map_ext. intros msg.
    now rewrite build_role_expected.
  - intros raw. rewrite build_role_expected. unfold expected_role.
    destruct (matches_ignoring_case raw "user") eqn:Hu;
      destruct (matches_ignoring_case raw "system") eqn:Hs.
    + apply matches_length in Hu, Hs. rewrite Hu in Hs. discriminate Hs.
    + repeat split; intros; intuition congruence.
    + repeat split; intros; intuition congruence.
    + repeat split; intros; intuition congruence.
Qed.

Lemma split_has_no_separator sep s : forall field,
  In field (Py.split sep s) -> occurs sep field = false.
Proof.
  induction s as [|c rest IH]; intros field Hin.
  - destruct Hin as [<-|[]]. reflexivity.
  - cbn [Py.split] in Hin.
    destruct (Ascii.eqb_spec c sep) as [->|Hne].
    + destruct Hin as [<-|Hin]; [reflexivity | now apply IH].
    + destruct (Py.split sep rest) as [|f fs] eqn:Hs.
      * destruct Hin as [<-|[]]. cbn.
        destruct (Ascii.eqb_spec sep c); [congruence | reflexivity].
      * destruct Hin as [<-|Hin].
        -- cbn [occurs]. rewrite (IH f ltac:(now left)).
           destruct (Ascii.eqb_spec sep c); [congruence | reflexivity].
        -- apply IH. now right.
Qed.

Lemma append_cons c a b : String c a +:+ b = String c (a +:+ b).
Proof. reflexivity. Qed.

Lemma join_chars s : Py.join (Py.chars s) = s.
Proof.
  induction s as [|c rest IH]; [reflexivity|]. cbn [Py.chars].
  destruct (Py.chars rest) as [|chunk more].
  - cbn in IH. subst rest. reflexivity.
  - destruct (Py.continues chunk); rewrite <- IH; reflexivity.
Qed.

Lemma occurs_append x a b : occurs x (a +:+ b) = occurs x a || occurs x b.
Proof.
  induction a as [|c a IH]; [reflexivity|].
  rewrite append_cons. cbn [occurs]. now rewrite IH, orb_assoc.
Qed.

Lemma occurs_join x chunks :
  occurs x (Py.join chunks) = existsb (occurs x) chunks.
Proof.
  induction chunks as [|ch rest IH]; [reflexivity|].
  cbn [Py.join fold_right existsb]. rewrite occurs_append. now rewrite <- IH.
Qed.

Lemma existsb_lstrip_chars (f : string -> bool) chunks :
  existsb f chunks = false -> existsb f (Py.lstrip_chars chunks) = false.
Proof.
  induction chunks as [|ch rest IH]; [auto|]. intros H. cbn [Py.lstrip_chars].
  destruct (Py.isspace ch); [|exact H].
  cbn [existsb] in H. apply orb_false_iff in H as [_ H]. now apply IH.
Qed.

Lemma existsb_rstrip_chars (f : string -> bool) chunks :
  existsb f chunks = false -> existsb f (Py.rstrip_chars chunks) = false.
Proof.
  induction chunks as [|ch rest IH]; [auto|]. intros H.
  cbn [existsb] in H. apply orb_false_iff in H as [Hch H].
  specialize (IH H). cbn [Py.rstrip_chars].
  destruct (Py.rstrip_chars rest) as [|b kept].
  - destruct (Py.isspace ch); [reflexivity|]. cbn. now rewrite Hch.
  - cbn [existsb] in *. now rewrite Hch, IH.
Qed.

Lemma occurs_strip x s : occurs x s = false -> occurs x (Py.strip s) = false.
Proof.
  intros H. unfold Py.strip. rewrite occurs_join.
  apply existsb_rstrip_chars, existsb_lstrip_chars.
  now rewrite <- occurs_join, join_chars.
Qed.

Lemma chars_well_split s : well_split (Py.chars s).
Proof.
  induction s as [|c rest IH]; [exact I|]. cbn [Py.chars].
  destruct (Py.chars rest) as [|chunk more]; [now split|].
  destruct IH as [Hchunk Hmore].
  destruct (Py.continues chunk) eqn:Hcont.
  - split; [|exact Hmore]. destruct chunk as [|d tail]; [discriminate|].
    cbn in *. now rewrite Hcont, Hchunk.
  - split; [reflexivity|]. constructor; [|exact Hmore].
    unfold starts_char. now rewrite Hchunk, Hcont.
Qed.

Lemma chars_after_tail tail : forall rest,
  all_continuation tail = true ->
  tail <> "" ->
  Py.chars (Py.join rest) = rest ->
  Forall (fun c => starts_char c = true) rest ->
  Py.chars (tail +:+ Py.join rest) = tail :: rest.
Proof.
  induction tail as [|t tail IH]; intros rest Hcont Hne Hrest Hstarts;
    [congruence|].
  cbn [all_continuation] in Hcont. apply andb_true_iff in Hcont as [Ht Htail].
  rewrite append_cons. cbn [Py.chars].
  destruct tail as [|t' tail'].
  - change ("" +:+ Py.join rest) with (Py.join rest). rewrite Hrest.
    destruct Hstarts as [|r rs Hr _]; [reflexivity|].
    unfold starts_char in Hr. apply andb_true_iff in Hr as [_ Hr].
    apply negb_true_iff in Hr. now rewrite Hr.
  - rewrite (IH rest Htail ltac:(discriminate) Hrest Hstarts).
    cbn [all_continuation] in Htail. apply andb_true_iff in Htail as [Ht' _].
    cbn [Py.continues]. now rewrite Ht'.
Qed.

Lemma chars_after_char ch : forall rest,
  is_char ch = true ->
  Py.chars (Py.join rest) = rest ->
  Forall (fun c => starts_char c = true) rest ->
  Py.chars (ch +:+ Py.join rest) = ch :: rest.
Proof.
  intros rest Hch Hrest Hstarts. destruct ch as [|c tail]; [discriminate|].
  cbn [is_char] in Hch. rewrite append_cons. cbn [Py.chars].
  destruct tail as [|t tail'].
  - change ("" +:+ Py.join rest) with (Py.join rest). rewrite Hrest.
    destruct Hstarts as [|r rs Hr _]; [reflexivity|].
    unfold starts_char in Hr. apply andb_true_iff in Hr as [_ Hr].
    apply negb_true_iff in Hr. now rewrite Hr.
  - rewrite (chars_after_tail _ rest Hch ltac:(discriminate) Hrest Hstarts).
    cbn [all_continuation] in Hch. apply andb_true_iff in Hch as [Ht _].
    cbn [Py.continues]. now rewrite Ht.
Qed.

Lemma chars_join_starts rest :
  Forall (fun c => starts_char c = true) rest -> Py.chars (Py.join rest) = rest.
Proof.
  induction 1 as [|r rs Hr Hrs IH]; [reflexivity|].
  cbn [Py.join fold_right]. apply chars_after_char; auto.
  unfold starts_char in Hr. now apply andb_true_iff in Hr as [Hr _].
Qed.

(** Splitting what was joined gives the chunks back. *)
Lemma chars_join chunks : well_split chunks -> Py.chars (Py.join chunks) = chunks.
Proof.
  destruct chunks as [|ch rest]; [reflexivity|]. intros [Hch Hrest].
  cbn [Py.join fold_right]. apply chars_after_char; auto.
  now apply chars_join_starts.
Qed.

Lemma starts_well_split rest :
  Forall (fun c => starts_char c = true) rest -> well_split rest.
Proof.
  intros H. destruct H as [|r rs Hr Hrs]; [exact I|]. split; [|exact Hrs].
  unfold starts_char in Hr. now apply andb_true_iff in Hr as [Hr _].
Qed.

Lemma Forall_lstrip_chars (Q : string -> Prop) chunks :
  Forall Q chunks -> Forall Q (Py.lstrip_chars chunks).
Proof.
  induction 1 as [|ch rest Hch Hrest IH]; [constructor|]. cbn [Py.lstrip_chars].
  destruct (Py.isspace ch); [exact IH | now constructor].
Qed.

Lemma Forall_rstrip_chars (Q : string -> Prop) chunks :
  Forall Q chunks -> Forall Q (Py.rstrip_chars chunks).
Proof.
  induction 1 as [|ch rest Hch Hrest IH]; [constructor|]. cbn [Py.rstrip_chars].
  destruct (Py.rstrip_chars rest) as [|b kept].
  - destruct (Py.isspace ch); [constructor | now repeat constructor].
  - now constructor.
Qed.

Lemma well_split_lstrip chunks :
  well_split chunks -> well_split (Py.lstrip_chars chunks).
Proof.
  destruct chunks as [|ch rest]; [auto|]. intros [Hch Hrest].
  cbn [Py.lstrip_chars]. destruct (Py.isspace ch); [|now split].
  now apply starts_well_split, Forall_lstrip_chars.
Qed.

Lemma well_split_rstrip chunks :
  well_split chunks -> well_split (Py.rstrip_chars chunks).
Proof.
  destruct chunks as [|ch rest]; [auto|]. intros [Hch Hrest].
  cbn [Py.rstrip_chars].
  pose proof (Forall_rstrip_chars _ rest Hrest) as Hkept.
  destruct (Py.rstrip_chars rest) as [|b kept].
  - destruct (Py.isspace ch); [exact I | now split].
  - now split.
Qed.

Lemma lstrip_chars_head chunks ch :
  head (Py.lstrip_chars chunks) = Some ch -> Py.isspace ch = false.
Proof.
  induction chunks as [|a rest IH]; [discriminate|]. cbn [Py.lstrip_chars].
  destruct (Py.isspace a) eqn:Ha; [exact IH|]. cbn. now intros [= <-].
Qed.

Lemma rstrip_chars_head chunks ch :
  head (Py.rstrip_chars chunks) = Some ch -> head chunks = Some ch.
Proof.
  destruct chunks as [|a rest]; [discriminate|]. cbn [Py.rstrip_chars].
  destruct (Py.rstrip_chars rest); [destruct (Py.isspace a); [discriminate|]|]; auto.
Qed.

Lemma rstrip_chars_last chunks ch :
  last (Py.rstrip_chars chunks) = Some ch -> Py.isspace ch = false.
Proof.
  induction chunks as [|a rest IH]; [discriminate|]. cbn [Py.rstrip_chars].
  destruct (Py.rstrip_chars rest) as [|b kept].
  - destruct (Py.isspace a) eqn:Ha; [discriminate|]. cbn. now intros [= <-].
  - exact IH.
Qed.

Lemma lstrip_chars_clean chunks :
  (forall ch, head chunks = Some ch -> Py.isspace ch = false) ->
  Py.lstrip_chars chunks = chunks.
Proof.
  destruct chunks as [|a rest]; [reflexivity|]. intros H. cbn [Py.lstrip_chars].
  now rewrite (H a eq_refl).
Qed.

Lemma rstrip_chars_idempotent chunks :
  Py.rstrip_chars (Py.rstrip_chars chunks) = Py.rstrip_chars chunks.
Proof.
  induction chunks as [|a rest IH]; [reflexivity|]. cbn [Py.rstrip_chars].
  destruct (Py.rstrip_chars rest) as [|b kept] eqn:Hr.
  - destruct (Py.isspace a) eqn:Ha; [reflexivity|]. cbn. now rewrite Ha.
  - change (Py.rstrip_chars (a :: b :: kept))
      with (match Py.rstrip_chars (b :: kept) with
            | [] => if Py.isspace a then [] else [a]
            | kept' => a :: kept'
            end).
    now rewrite IH.
Qed.

Lemma chars_strip s :
  Py.chars (Py.strip s) = Py.rstrip_chars (Py.lstrip_chars (Py.chars s)).
Proof.
  unfold Py.strip. apply chars_join.
  apply well_split_rstrip, well_split_lstrip, chars_well_split.
Qed.

Lemma strip_no_outer_space s : no_outer_space (Py.strip s).
Proof.
  unfold no_outer_space. rewrite chars_strip. split; intros ch Hch.
  - apply rstrip_chars_head in Hch. now apply lstrip_chars_head in Hch.
  - now apply rstrip_chars_last in Hch.
Qed.

Lemma strip_idempotent s : Py.strip (Py.strip s) = Py.strip s.
Proof.
  unfold Py.strip at 1. rewrite chars_strip.
  rewrite lstrip_chars_clean.
  - now rewrite rstrip_chars_idempotent.
  - intros ch Hch. apply rstrip_chars_head in Hch.
    now apply lstrip_chars_head in Hch.
Qed.

(** X18 -- The fallback model names are clean.  Every entry of
    [fallback_models_list] is a non-empty name without a comma and without
    white space at either end (stripping it again changes nothing),
    whatever the configured string is; blank fields between commas are
    dropped. *)
Theorem fallback_models_are_clean (settings : Settings) (m : string) :
  In m (fallback_models_list settings) ->
  m <> ""
  /\ occurs "," m = false
  /\ no_outer_space m
  /\ Py.strip m = m.
Proof.
  unfold fallback_models_list. intros Hin.
  apply in_map_iff in Hin as (field & <- & Hfield).
  apply filter_In in Hfield as [Hfield Hkept].
  split; [now apply truthy_named|].
  split.
  { apply occurs_strip.
    now apply (split_has_no_separator "," (google_fallback_models settings)). }
  split; [apply strip_no_outer_space | apply strip_idempotent].
Qed.

Lemma last_cons_default {A} (l : list A) : forall (x d : A),
  List.last (x :: l) d = List.last l x.
Proof.
  induction l as [|y l IH]; intros x d; [reflexivity|].
  change (List.last (x :: y :: l) d) with (List.last (y :: l) d).
  now rewrite !IH.
Qed.

(** X19 -- The summarization model is the last candidate.  For the agent
    [__init__] builds, the cheaper model chosen by the summarization job is
    the last entry of the agent's candidate list (the last fallback, or the
    primary model when no fallback is configured); the list is never
    empty and starts with the primary model. *)
Theorem cheaper_model_is_last_candidate
    (settings : Settings) (prompt : string) (agent : CognizanceAgent) :
  CognizanceAgent_init settings prompt = Some agent ->
  last (model_names agent) = Some (cheaper_model settings)
  /\ head (model_names agent) = Some (google_model settings)
  /\ In (cheaper_model settings) (model_candidates agent None).
Proof.
  intros Hinit. destruct (init_inv _ _ _ Hinit) as (_ & _ & Hnames).
  unfold model_candidates. rewrite Hnames. unfold cheaper_model, Py.last_or.
  assert (Hlast : forall (l : list string) x,
            last (x :: l) = Some (List.last l x)).
  { induction l as [|y l IH]; intros x; [reflexivity|].
    change (last (x :: y :: l)) with (last (y :: l)).
    now rewrite IH, last_cons_default. }
  split; [apply Hlast|]. split; [reflexivity|].
  assert (Hin : forall (l : list string) x, In (List.last l x) (x :: l)).
  { induction l as [|y l IH]; intros x; [now left|].
    right. rewrite last_cons_default. apply IH. }
  apply Hin.
Qed.

Lemma split_length sep s : length (Py.split sep s) = S (count_char sep s).
Proof.
  induction s as [|c rest IH]; [reflexivity|]. cbn [Py.split count_char].
  destruct (Ascii.eqb c sep).
  - cbn [length]. now rewrite IH.
  - destruct (Py.split sep rest) as [|f fs]; [discriminate IH|].
    cbn [length] in *. lia.
Qed.

(** X20 -- The CORS origins keep every field.  [cors_origins_list] has one
    entry per comma-separated field, blank ones included (an empty setting
    gives one empty origin), each without a comma and without white space at
    either end; the fallback model list is the same parse with the empty
    entries dropped. *)
Theorem cors_origins_keep_every_field (cors_origins : string) :
  length (cors_origins_list cors_origins) = S (count_char "," cors_origins)
  /\ (forall origin, In origin (cors_origins_list cors_origins) ->
        occurs "," origin = false /\ no_outer_space origin)
  /\ cors_origins_list "" = [""]
  /\ forall settings,
       fallback_models_list settings
       = List.filter Py.truthy (cors_origins_list (google_fallback_models settings)).
Proof.
  unfold cors_origins_list.
  split; [now rewrite length_map, split_length|].
  split.
  { intros origin Hin. apply in_map_iff in Hin as (field & <- & Hfield).
    split; [|apply strip_no_outer_space].
    apply occurs_strip.
    now apply (split_has_no_separator "," cors_origins). }
  split; [reflexivity|].
  intros settings. unfold fallback_models_list.
  induction (Py.split "," (google_fallback_models settings)) as [|f fs IH];
    [reflexivity|].
  cbn [List.filter map].
  destruct (Py.truthy (Py.strip f)); cbn [map]; now rewrite IH.
Qed.

(** ** The further statements on concrete cases *)

Lemma cleanup_loop_is_last_pass_witness :
  _cleanup_summary_cache_loop [100; 150; 200]%Z Cases.mixed_cache
  = fst (sweep_pass 200 Cases.mixed_cache)
  /\ fst (sweep_pass 200 Cases.mixed_cache) !! "query-123" = None
  /\ fst (sweep_pass 200 Cases.mixed_cache) !! "query-456"
     = Some {| summary := "The user asked about prizes."; expires_at := 900 |}.
Proof.
  destruct (cleanup_loop_is_last_pass [100; 150]%Z 200 Cases.mixed_cache)
    as (Hloop & _).
  - repeat constructor; lia.
  - split; [exact Hloop|]. split; vm_compute; reflexivity.
Defined.

Lemma sweep_does_not_change_reply_witness :
  reply (chat Scenario.summarizer Scenario.agent Scenario.settings
           Scenario.long_request 200 (fst (sweep_pass 150 Scenario.stale_cache)))
  = reply (chat Scenario.summarizer Scenario.agent Scenario.settings
             Scenario.long_request 200 Scenario.stale_cache).
Proof.
  destruct (sweep_does_not_change_reply Scenario.summarizer Scenario.agent
              Scenario.settings Scenario.long_request 150 200 Scenario.stale_cache)
    as (_ & Hreply & _).
  - lia.
  - exact Hreply.
Defined.

Lemma process_query_without_named_candidate_witness :
  CognizanceAgent_init Cases.unnamed_settings Scenario.prompt
  = Some Cases.unnamed_agent
  /\ process_query Scenario.summarizer Cases.unnamed_agent Cases.unnamed_settings
       "When is the festival?" None None None None
     = ({| success := false; response := quota_error_message; model_used := None;
           error := Some "Quota exceeded on all models" |}, []).
Proof.
  split; [reflexivity|].
  apply (process_query_without_named_candidate Scenario.summarizer
           Cases.unnamed_agent Cases.unnamed_settings
           "When is the festival?" None None None None).
  repeat constructor.
Defined.

Lemma summarization_without_text_leaves_cache_witness :
  fst (_do Scenario.rejecting Scenario.agent Scenario.settings
         Scenario.keyed_job 1000 Scenario.stale_cache)
  = Scenario.stale_cache.
Proof.
  apply (summarization_without_text_leaves_cache Scenario.rejecting
           Scenario.agent Scenario.settings Scenario.keyed_job 1000
           Scenario.stale_cache).
  intros t m c g answer H. discriminate H.
Defined.

Lemma summarization_calls_cheaper_model_only_witness :
  count_calls (interactions_of_job Scenario.saturated Scenario.agent
                 Scenario.settings true Scenario.keyed_job 1000
                 Scenario.stale_cache)
  <= 3.
Proof.
  destruct (summarization_calls_cheaper_model_only Scenario.saturated
              Scenario.agent Scenario.settings true Scenario.keyed_job 1000
              Scenario.stale_cache) as (_ & Hcalls).
  - vm_compute. discriminate.
  - exact Hcalls.
Defined.

Lemma chat_lookup_expires_like_sweep_witness :
  cache_after (window_history Scenario.long_request 200 Cases.mixed_cache)
    !! "query-123"
  = fst (sweep_pass 200 Cases.mixed_cache) !! "query-123".
Proof.
  destruct (chat_lookup_expires_like_sweep Scenario.long_request 200
              Cases.mixed_cache Scenario.long_turns "query-123")
    as (Hsame & _).
  - reflexivity.
  - cbn. unfold MAX_TURNS. lia.
  - reflexivity.
  - discriminate.
  - exact Hsame.
Defined.

Lemma fresh_summary_is_reused_witness :
  let w := window_history Cases.fresh_request 200 Cases.mixed_cache in
  history w
  = Some ({| role := "assistant"; content := "The user asked about prizes." |}
            :: drop 8 Scenario.long_turns)
  /\ window_history Cases.fresh_request 800 (cache_after w) = w.
Proof.
  intros w.
  destruct (fresh_summary_is_reused Cases.fresh_request 200 800 Cases.mixed_cache
              Scenario.long_turns "query-456"
              {| summary := "The user asked about prizes."; expires_at := 900 |})
    as (Hw & Hagain).
  - reflexivity.
  - cbn. unfold MAX_TURNS. lia.
  - reflexivity.
  - discriminate.
  - reflexivity.
  - cbn. lia.
  - cbn. lia.
  - split; [|exact Hagain]. fold w in Hw. now rewrite Hw.
Defined.

Lemma stored_summary_served_until_ttl_witness :
  let cache' := fst (_do Scenario.summarizer Scenario.agent Scenario.settings
                       Scenario.keyed_job 1000 Scenario.stale_cache) in
  history (window_history Scenario.long_request 22599 cache')
  = Some ({| role := "assistant";
             content := "The user asked about dates and registration." |}
            :: drop 8 Scenario.long_turns)
  /\ history (window_history Scenario.long_request 22600 cache')
     = Some (drop 8 Scenario.long_turns).
Proof.
  intros cache'.
  destruct (stored_summary_served_until_ttl Scenario.summarizer Scenario.agent
              Scenario.settings Scenario.keyed_job "query-123" 1000 22599
              Scenario.stale_cache Scenario.long_request Scenario.long_turns)
    as (Hfresh & _);
    [reflexivity | discriminate | reflexivity | vm_compute; discriminate
    | reflexivity | cbn; unfold MAX_TURNS; lia | reflexivity |].
  destruct (stored_summary_served_until_ttl Scenario.summarizer Scenario.agent
              Scenario.settings Scenario.keyed_job "query-123" 1000 22600
              Scenario.stale_cache Scenario.long_request Scenario.long_turns)
    as (_ & Hstale);
    [reflexivity | discriminate | reflexivity | vm_compute; discriminate
    | reflexivity | cbn; unfold MAX_TURNS; lia | reflexivity |].
  split.
  - fold cache' in Hfresh. rewrite (Hfresh ltac:(lia)). reflexivity.
  - fold cache' in Hstale. rewrite (Hstale ltac:(lia)). reflexivity.
Defined.

Lemma fallback_models_are_clean_witness :
  fallback_models_list Cases.untidy_settings
  = ["gemini-2.0-flash"; "gemini-1.5-flash"]
  /\ occurs "," "gemini-1.5-flash" = false
  /\ Py.strip "gemini-1.5-flash" = "gemini-1.5-flash".
Proof.
  split; [reflexivity|].
  destruct (fallback_models_are_clean Cases.untidy_settings "gemini-1.5-flash")
    as (_ & Hcomma & _ & Hstrip).
  - right. left. reflexivity.
  - split; [exact Hcomma | exact Hstrip].
Defined.

Lemma cheaper_model_is_last_candidate_witness :
  last (model_names Scenario.agent) = Some "gemini-2.0-flash-lite"
  /\ head (model_names Scenario.agent) = Some "gemini-2.5-flash".
Proof.
  destruct (cheaper_model_is_last_candidate Scenario.settings Scenario.prompt
              Scenario.agent) as (Hlast & Hhead & _).
  - reflexivity.
  - split; [exact Hlast | exact Hhead].
Defined.

Lemma process_query_calls_only_candidates_witness :
  In Scenario.primary (model_candidates Scenario.agent None)
  /\ Scenario.primary <> "".
Proof.
  destruct (process_query_calls_only_candidates Scenario.flaky Scenario.agent
              Scenario.settings "When is the festival?" None None None None
              Scenario.primary
              (query_contents "When is the festival?" None)
              (generation_config Scenario.agent))
    as (Hin & Hnamed & _).
  - vm_compute. left. reflexivity.
  - split; [exact Hin | exact Hnamed].
Defined.
